(** * GPIO controller of the Raspberry Pi GPIO API

    A shallow embedding of [raspberry_gpio_api/gpio_controller.py] and of the
    status handler of [raspberry_gpio_api/app.py].

    - Pin numbers and levels are Python [int]s: [Z], with [LOW = 0] and
      [HIGH = 1] as in [RPi.GPIO] and in [MockGPIO].
    - [configured_pins] is a Python [set]: [gset Z]; [pin_states] is a
      [dict]: [gmap Z Z].
    - [self.lock] is a [threading.Lock], which is not re-entrant: acquiring
      it while it is held blocks for ever.  Only sequential executions are
      modelled, so a blocked acquisition is the outcome [Hang].
    - Python exceptions are the outcome [Raise]; [try: ... except Exception]
      is [try_except].
    - The GPIO library is an interface ([Driver]) whose calls may raise; the
      [MockGPIO] class of the source is one instance.  Every call made to the
      driver is recorded, with its result, in the ghost field [gpio_calls].
    - Every call to the controller's [logger] appends one [log_entry] to the
      field [log]; the debug messages of [MockGPIO] itself are left out.
    - Iterating over [configured_pins] visits the pins in the order of
      [elements]; CPython's order is that of its hash table.  The set is
      never resized while it is iterated, so iterating over a snapshot is
      exact.
    - The [float] durations of [pulse] and [blink] are rationals;
      [time.sleep] raises on a negative one and on one too large for its
      count of nanoseconds. *)

From stdpp Require Import gmap strings list fin_maps.
From Stdlib Require Import ZArith QArith Lia.

Open Scope Z_scope.

(** ** Levels and valid pins *)

Definition LOW : Z := 0.
Definition HIGH : Z := 1.

(** The set literal of [_validate_pin]. *)
Definition valid_pins : gset Z :=
  list_to_set [2; 3; 4; 5; 6; 7; 8; 9; 10; 11; 12; 13; 14; 15; 16; 17; 18;
               19; 20; 21; 22; 23; 24; 25; 26; 27].

(** ** The GPIO library as an interface *)

(** A call either returns ([true], or [Some v] for [input]) or raises
    ([false], [None]); in both cases it leaves a new library state.
    [GPIO_AVAILABLE] is the module constant set when the library is
    imported. *)
Record Driver : Type := {
  drv_state : Type;
  GPIO_AVAILABLE : bool;
  drv_setmode : drv_state -> bool * drv_state;
  drv_setup : Z -> Z -> drv_state -> bool * drv_state;
  drv_output : Z -> Z -> drv_state -> bool * drv_state;
  drv_input : Z -> drv_state -> option Z * drv_state;
  drv_cleanup : drv_state -> bool * drv_state
}.

(** One record of the ghost trace per call to the library. *)
Inductive drv_event : Type :=
| EvSetmode (ok : bool)
| EvSetup (pin initial : Z) (ok : bool)
| EvOutput (pin level : Z) (ok : bool)
| EvInput (pin : Z) (res : option Z)
| EvCleanup (ok : bool).

(** One constructor per [logger] call of the controller. *)
Inductive log_entry : Type :=
| LogGpioInitialized
| LogInitError
| LogInvalidPin (pin : Z)
| LogPinConfigured (pin initial : Z)
| LogSetupError (pin : Z)
| LogSetupPinsOk (pins : list Z)
| LogSetupPinsFailed (pins : list Z)
| LogAutoConfigure (pin : Z)
| LogTurnedOn (pin : Z)
| LogTurnOnError (pin : Z)
| LogTurnedOff (pin : Z)
| LogTurnOffError (pin : Z)
| LogToggleError (pin : Z)
| LogNotConfigured (pin : Z)
| LogReadError (pin : Z)
| LogPulseError (pin : Z)
| LogBlinkError (pin : Z)
| LogAllOff
| LogSomeNotOff
| LogAllOffError
| LogCleanupDone
| LogCleanupError.

(** ** Python [dict] with insertion order, for the result of [setup_pins] *)

Fixpoint dict_set {V : Type} (k : Z) (v : V) (d : list (Z * V)) : list (Z * V) :=
  match d with
  | [] => [(k, v)]
  | (k', v') :: d' =>
      if bool_decide (k' = k) then (k', v) :: d' else (k', v') :: dict_set k v d'
  end.

Fixpoint dict_get {V : Type} (k : Z) (d : list (Z * V)) : option V :=
  match d with
  | [] => None
  | (k', v') :: d' => if bool_decide (k' = k) then Some v' else dict_get k d'
  end.

(** The dictionary built by assigning the entries of [l] in order. *)
Definition dict_fill {V} (l : list (Z * V)) (d : list (Z * V)) : list (Z * V) :=
  fold_left (fun d e => dict_set e.1 e.2 d) l d.

(** One entry of the mapping returned by [get_all_pins_status]. *)
Record pin_status : Type := {
  state : option Z;
  state_name : string;
  configured : bool
}.

(** The dictionary returned by [get_system_info]. *)
Record system_info : Type := {
  gpio_available : bool;
  initialized : bool;
  info_configured_pins : list Z;
  total_configured : nat
}.

(** The first duration, in seconds, that [time.sleep] refuses: 2^63 ns. *)
Definition SLEEP_LIMIT : Q := 9223372036854775808 # 1000000000.

Section Controller.

Context (drv : Driver).

(** ** The controller object, the library state and the two traces *)

Record State : Type := {
  configured_pins : gset Z;
  pin_states : gmap Z Z;
  lock_held : bool;
  is_initialized : bool;
  gpio : drv_state drv;
  gpio_calls : list drv_event;
  log : list log_entry
}.

Definition set_configured_pins (f : gset Z -> gset Z) (s : State) : State :=
  {| configured_pins := f (configured_pins s); pin_states := pin_states s;
     lock_held := lock_held s; is_initialized := is_initialized s;
     gpio := gpio s; gpio_calls := gpio_calls s; log := log s |}.

Definition set_pin_states (f : gmap Z Z -> gmap Z Z) (s : State) : State :=
  {| configured_pins := configured_pins s; pin_states := f (pin_states s);
     lock_held := lock_held s; is_initialized := is_initialized s;
     gpio := gpio s; gpio_calls := gpio_calls s; log := log s |}.

Definition set_lock_held (b : bool) (s : State) : State :=
  {| configured_pins := configured_pins s; pin_states := pin_states s;
     lock_held := b; is_initialized := is_initialized s;
     gpio := gpio s; gpio_calls := gpio_calls s; log := log s |}.

Definition set_is_initialized (b : bool) (s : State) : State :=
  {| configured_pins := configured_pins s; pin_states := pin_states s;
     lock_held := lock_held s; is_initialized := b;
     gpio := gpio s; gpio_calls := gpio_calls s; log := log s |}.

Definition record_call (d : drv_state drv) (e : drv_event) (s : State) : State :=
  {| configured_pins := configured_pins s; pin_states := pin_states s;
     lock_held := lock_held s; is_initialized := is_initialized s;
     gpio := d; gpio_calls := gpio_calls s ++ [e]; log := log s |}.

Definition add_log (e : log_entry) (s : State) : State :=
  {| configured_pins := configured_pins s; pin_states := pin_states s;
     lock_held := lock_held s; is_initialized := is_initialized s;
     gpio := gpio s; gpio_calls := gpio_calls s; log := log s ++ [e] |}.

(** ** Outcomes and the monad of controller code *)

Inductive outcome (A : Type) : Type :=
| Ret (a : A) (s : State)
| Raise (s : State)
| Hang.

Arguments Ret {A} a s.
Arguments Raise {A} s.
Arguments Hang {A}.

Definition M (A : Type) : Type := State -> outcome A.

Definition ret {A} (a : A) : M A := fun s => Ret a s.

Definition bind {A B} (m : M A) (f : A -> M B) : M B := fun s =>
  match m s with
  | Ret a s' => f a s'
  | Raise s' => Raise s'
  | Hang => Hang
  end.

Definition raise {A} : M A := fun s => Raise s.

Definition gets {A} (f : State -> A) : M A := fun s => Ret (f s) s.

Definition modify (f : State -> State) : M unit := fun s => Ret tt (f s).

(** [try: body except Exception: handler] *)
Definition try_except {A} (body handler : M A) : M A := fun s =>
  match body s with
  | Raise s' => handler s'
  | o => o
  end.

(** [with self.lock: body].  The lock is released when the body returns and
    when it raises. *)
Definition with_lock {A} (body : M A) : M A := fun s =>
  if lock_held s then Hang
  else match body (set_lock_held true s) with
       | Ret a s' => Ret a (set_lock_held false s')
       | Raise s' => Raise (set_lock_held false s')
       | Hang => Hang
       end.

Definition logger (e : log_entry) : M unit := modify (add_log e).

(** [for x in l: acc = body(acc, x)] *)
Fixpoint for_each {A B} (l : list B) (body : A -> B -> M A) (acc : A) : M A :=
  match l with
  | [] => ret acc
  | x :: l' => bind (body acc x) (for_each l' body)
  end.

Local Notation "x <- m ;; k" := (bind m (fun x => k))
  (at level 100, m at next level, right associativity).
Local Notation "m ;;; k" := (bind m (fun _ => k))
  (at level 100, right associativity).

(** ** Calls to the GPIO library *)

Definition GPIO_setmode : M unit := fun s =>
  let r := drv_setmode drv (gpio s) in
  let s' := record_call r.2 (EvSetmode r.1) s in
  if r.1 then Ret tt s' else Raise s'.

Definition GPIO_setup (pin initial : Z) : M unit := fun s =>
  let r := drv_setup drv pin initial (gpio s) in
  let s' := record_call r.2 (EvSetup pin initial r.1) s in
  if r.1 then Ret tt s' else Raise s'.

Definition GPIO_output (pin level : Z) : M unit := fun s =>
  let r := drv_output drv pin level (gpio s) in
  let s' := record_call r.2 (EvOutput pin level r.1) s in
  if r.1 then Ret tt s' else Raise s'.

Definition GPIO_input (pin : Z) : M Z := fun s =>
  let r := drv_input drv pin (gpio s) in
  let s' := record_call r.2 (EvInput pin r.1) s in
  match r.1 with
  | Some v => Ret v s'
  | None => Raise s'
  end.

Definition GPIO_cleanup : M unit := fun s =>
  let r := drv_cleanup drv (gpio s) in
  let s' := record_call r.2 (EvCleanup r.1) s in
  if r.1 then Ret tt s' else Raise s'.

(** [time.sleep(d)]: the passing of time is not modelled.  It raises
    [ValueError] on a negative duration and [OverflowError] on a duration
    that does not fit the signed 64-bit count of nanoseconds it is converted
    to, that is from [SLEEP_LIMIT] = 2^63 ns on. *)
Definition time_sleep (d : Q) : M unit :=
  if Qle_bool 0 d && negb (Qle_bool SLEEP_LIMIT d) then ret tt else raise.

(** ** [GPIOController] *)

Definition _initialize_gpio : M unit :=
  try_except
    (with_lock
       (init <- gets is_initialized ;;
        if negb init then
          GPIO_setmode ;;;
          modify (set_is_initialized true) ;;;
          logger LogGpioInitialized
        else ret tt))
    (logger LogInitError ;;; raise).

(** The object as [__init__] leaves it before [_initialize_gpio] runs. *)
Definition new_state (d : drv_state drv) : State :=
  {| configured_pins := ∅; pin_states := ∅; lock_held := false;
     is_initialized := false; gpio := d; gpio_calls := []; log := [] |}.

Definition __init__ (d : drv_state drv) : outcome unit :=
  _initialize_gpio (new_state d).

Definition _validate_pin (pin : Z) : M bool :=
  if negb (bool_decide (pin ∈ valid_pins)) then
    logger (LogInvalidPin pin) ;;; ret false
  else ret true.

Definition setup_pin (pin initial_state : Z) : M bool :=
  try_except
    (valid <- _validate_pin pin ;;
     if negb valid then ret false
     else
       with_lock
         (GPIO_setup pin initial_state ;;;
          modify (set_configured_pins (fun c => {[pin]} ∪ c)) ;;;
          modify (set_pin_states <[pin := initial_state]>) ;;;
          logger (LogPinConfigured pin initial_state) ;;;
          ret true))
    (logger (LogSetupError pin) ;;; ret false).

Definition setup_pins (pins : list Z) (initial_state : Z) : M (list (Z * bool)) :=
  results <- for_each pins
               (fun results pin =>
                  ok <- setup_pin pin initial_state ;;
                  ret (dict_set pin ok results)) [] ;;
  let successful_pins := (List.filter (fun e => e.2) results).*1 in
  let failed_pins := (List.filter (fun e => negb e.2) results).*1 in
  (if bool_decide (successful_pins = []) then ret tt
   else logger (LogSetupPinsOk successful_pins)) ;;;
  (if bool_decide (failed_pins = []) then ret tt
   else logger (LogSetupPinsFailed failed_pins)) ;;;
  ret results.

Definition turn_on (pin : Z) : M bool :=
  try_except
    (cfg <- gets configured_pins ;;
     go <- (if negb (bool_decide (pin ∈ cfg)) then
              logger (LogAutoConfigure pin) ;;;
              setup_pin pin LOW
            else ret true) ;;
     if negb go then ret false
     else
       with_lock
         (GPIO_output pin HIGH ;;;
          modify (set_pin_states <[pin := HIGH]>) ;;;
          logger (LogTurnedOn pin) ;;;
          ret true))
    (logger (LogTurnOnError pin) ;;; ret false).

Definition turn_off (pin : Z) : M bool :=
  try_except
    (cfg <- gets configured_pins ;;
     go <- (if negb (bool_decide (pin ∈ cfg)) then
              logger (LogAutoConfigure pin) ;;;
              setup_pin pin LOW
            else ret true) ;;
     if negb go then ret false
     else
       with_lock
         (GPIO_output pin LOW ;;;
          modify (set_pin_states <[pin := LOW]>) ;;;
          logger (LogTurnedOff pin) ;;;
          ret true))
    (logger (LogTurnOffError pin) ;;; ret false).

Definition get_pin_state (pin : Z) : M (option Z) :=
  try_except
    (cfg <- gets configured_pins ;;
     if negb (bool_decide (pin ∈ cfg)) then
       logger (LogNotConfigured pin) ;;; ret None
     else
       with_lock
         (current_state <- GPIO_input pin ;;
          modify (set_pin_states <[pin := current_state]>) ;;;
          ret (Some current_state)))
    (logger (LogReadError pin) ;;; ret None).

Definition toggle (pin : Z) : M bool :=
  try_except
    (current_state <- get_pin_state pin ;;
     if bool_decide (current_state = Some HIGH) then turn_off pin
     else turn_on pin)
    (logger (LogToggleError pin) ;;; ret false).

Definition get_all_pins_status : M (gmap Z pin_status) :=
  cfg <- gets configured_pins ;;
  for_each (elements cfg)
    (fun status pin =>
       st <- get_pin_state pin ;;
       ret (<[pin := {| state := st;
                        state_name := if bool_decide (st = Some HIGH)
                                      then "HIGH" else "LOW";
                        configured := true |}]> status)) ∅.

Definition pulse (pin : Z) (duration : Q) : M bool :=
  try_except
    (ok <- turn_on pin ;;
     if negb ok then ret false
     else time_sleep duration ;;; turn_off pin)
    (logger (LogPulseError pin) ;;; ret false).

(** The body of [blink]'s loop, [n] iterations left. *)
Fixpoint blink_loop (n : nat) (pin : Z) (interval : Q) : M bool :=
  match n with
  | O => ret true
  | S n' =>
      on <- turn_on pin ;;
      if negb on then ret false
      else
        time_sleep interval ;;;
        (off <- turn_off pin ;;
         if negb off then ret false
         else time_sleep interval ;;; blink_loop n' pin interval)
  end.

Definition blink (pin times : Z) (interval : Q) : M bool :=
  try_except
    (blink_loop (Z.to_nat times) pin interval)
    (logger (LogBlinkError pin) ;;; ret false).

Definition turn_all_off : M bool :=
  try_except
    (cfg <- gets configured_pins ;;
     success <- for_each (elements cfg)
                  (fun success pin =>
                     ok <- turn_off pin ;;
                     ret (if negb ok then false else success)) true ;;
     (if success then logger LogAllOff else logger LogSomeNotOff) ;;;
     ret success)
    (logger LogAllOffError ;;; ret false).

Definition cleanup : M unit :=
  try_except
    (with_lock
       (init <- gets is_initialized ;;
        if init then
          turn_all_off ;;;
          GPIO_cleanup ;;;
          modify (set_configured_pins (fun _ => ∅)) ;;;
          modify (set_pin_states (fun _ => ∅)) ;;;
          modify (set_is_initialized false) ;;;
          logger LogCleanupDone
        else ret tt))
    (logger LogCleanupError).

Definition get_configured_pins : M (list Z) :=
  cfg <- gets configured_pins ;; ret (elements cfg).

Definition is_pin_configured (pin : Z) : M bool :=
  cfg <- gets configured_pins ;; ret (bool_decide (pin ∈ cfg)).

Definition get_system_info : M system_info :=
  cfg <- gets configured_pins ;;
  init <- gets is_initialized ;;
  ret {| gpio_available := GPIO_AVAILABLE drv;
         initialized := init;
         info_configured_pins := elements cfg;
         total_configured := size cfg |}.

(** ** The public operations as data *)

Inductive Op : Type :=
| OpSetupPin (pin initial_state : Z)
| OpSetupPins (pins : list Z) (initial_state : Z)
| OpTurnOn (pin : Z)
| OpTurnOff (pin : Z)
| OpToggle (pin : Z)
| OpGetPinState (pin : Z)
| OpGetAllPinsStatus
| OpPulse (pin : Z) (duration : Q)
| OpBlink (pin times : Z) (interval : Q)
| OpTurnAllOff
| OpCleanup
| OpGetConfiguredPins
| OpIsPinConfigured (pin : Z)
| OpGetSystemInfo.

Inductive Value : Type :=
| VNone
| VBool (b : bool)
| VLevel (l : option Z)
| VResults (r : list (Z * bool))
| VStatus (m : gmap Z pin_status)
| VPins (l : list Z)
| VInfo (i : system_info).

Definition call (o : Op) : M Value :=
  match o with
  | OpSetupPin pin i => b <- setup_pin pin i ;; ret (VBool b)
  | OpSetupPins pins i => r <- setup_pins pins i ;; ret (VResults r)
  | OpTurnOn pin => b <- turn_on pin ;; ret (VBool b)
  | OpTurnOff pin => b <- turn_off pin ;; ret (VBool b)
  | OpToggle pin => b <- toggle pin ;; ret (VBool b)
  | OpGetPinState pin => l <- get_pin_state pin ;; ret (VLevel l)
  | OpGetAllPinsStatus => m <- get_all_pins_status ;; ret (VStatus m)
  | OpPulse pin d => b <- pulse pin d ;; ret (VBool b)
  | OpBlink pin times i => b <- blink pin times i ;; ret (VBool b)
  | OpTurnAllOff => b <- turn_all_off ;; ret (VBool b)
  | OpCleanup => cleanup ;;; ret VNone
  | OpGetConfiguredPins => l <- get_configured_pins ;; ret (VPins l)
  | OpIsPinConfigured pin => b <- is_pin_configured pin ;; ret (VBool b)
  | OpGetSystemInfo => i <- get_system_info ;; ret (VInfo i)
  end.

(** States a controller can be in between two calls: the one a returning
    constructor leaves, and those left by a public operation that returns. *)
Inductive reachable : State -> Prop :=
| reachable_init d s :
    __init__ d = Ret tt s -> reachable s
| reachable_call o s v s' :
    reachable s -> call o s = Ret v s' -> reachable s'.

(** ** The request layer: [app.py] *)

Inductive json : Type :=
| JNull
| JInt (z : Z)
| JStr (s : string).

(** Python's truth value of an [Optional[int]]. *)
Definition truthy (v : option Z) : bool :=
  match v with
  | Some z => negb (z =? 0)
  | None => false
  end.

Definition json_of_level (v : option Z) : json :=
  match v with
  | Some z => JInt z
  | None => JNull
  end.

(** A handler returns the payload given to [jsonify] and the HTTP code.  The
    message texts leave out the formatted pin number, the text of a caught
    exception is not modelled (its field is [JNull]), and the handlers' own
    logger is left out. *)
Definition response : Type := list (string * json) * Z.

Definition turn_pin_on (pin : Z) : M response :=
  try_except
    (success <- turn_on pin ;;
     if success then
       ret ([("status", JStr "success");
             ("message", JStr "turned ON");
             ("pin", JInt pin);
             ("state", JStr "HIGH")], 200)
     else
       ret ([("status", JStr "error");
             ("message", JStr "Failed to turn ON");
             ("pin", JInt pin)], 500))
    (ret ([("status", JStr "error"); ("message", JNull); ("pin", JInt pin)], 500)).

Definition get_pin_status (pin : Z) : M response :=
  try_except
    (st <- get_pin_state pin ;;
     ret ([("status", JStr "success");
           ("pin", JInt pin);
           ("state", JStr (if truthy st then "HIGH" else "LOW"));
           ("value", json_of_level st)], 200))
    (ret ([("status", JStr "error"); ("message", JNull); ("pin", JInt pin)], 500)).

End Controller.

Arguments Ret {drv A} a s.
Arguments Raise {drv A} s.
Arguments Hang {drv A}.
Arguments configured_pins {drv} s.
Arguments pin_states {drv} s.
Arguments lock_held {drv} s.
Arguments is_initialized {drv} s.
Arguments gpio {drv} s.
Arguments gpio_calls {drv} s.
Arguments log {drv} s.
Arguments set_configured_pins {drv} f s.
Arguments set_pin_states {drv} f s.
Arguments set_lock_held {drv} b s.
Arguments set_is_initialized {drv} b s.
Arguments record_call {drv} d e s.
Arguments add_log {drv} e s.
Arguments ret {drv A} a s.
Arguments bind {drv A B} m f s.
Arguments raise {drv A} s.
Arguments gets {drv A} f s.
Arguments modify {drv} f s.
Arguments try_except {drv A} body handler s.
Arguments with_lock {drv A} body s.
Arguments logger {drv} e s.
Arguments for_each {drv A B} l body acc s.
Arguments GPIO_setmode {drv} s.
Arguments GPIO_setup {drv} pin initial s.
Arguments GPIO_output {drv} pin level s.
Arguments GPIO_input {drv} pin s.
Arguments GPIO_cleanup {drv} s.
Arguments time_sleep {drv} d s.
Arguments _initialize_gpio {drv} s.
Arguments new_state {drv} d.
Arguments __init__ {drv} d.
Arguments _validate_pin {drv} pin s.
Arguments setup_pin {drv} pin initial_state s.
Arguments setup_pins {drv} pins initial_state s.
Arguments turn_on {drv} pin s.
Arguments turn_off {drv} pin s.
Arguments get_pin_state {drv} pin s.
Arguments toggle {drv} pin s.
Arguments get_all_pins_status {drv} s.
Arguments pulse {drv} pin duration s.
Arguments blink_loop {drv} n pin interval s.
Arguments blink {drv} pin times interval s.
Arguments turn_all_off {drv} s.
Arguments cleanup {drv} s.
Arguments get_configured_pins {drv} s.
Arguments is_pin_configured {drv} pin s.
Arguments get_system_info {drv} s.
Arguments call {drv} o s.
Arguments reachable {drv} s.
Arguments reachable_init {drv} d s _.
Arguments reachable_call {drv} o s v s' _ _.
Arguments turn_pin_on {drv} pin s.
Arguments get_pin_status {drv} pin s.

(** ** [MockGPIO], the simulation driver of the source *)

Module Mock.

Record MockState : Type := {
  _pin_states : gmap Z Z;
  _pin_modes : gmap Z string
}.

Definition empty : MockState := {| _pin_states := ∅; _pin_modes := ∅ |}.

Definition setmode (st : MockState) : bool * MockState := (true, st).

Definition setup (pin : Z) (mode : string) (initial : option Z)
    (st : MockState) : bool * MockState :=
  (true,
   {| _pin_modes := <[pin := mode]> (_pin_modes st);
      _pin_states :=
        match initial with
        | Some v => <[pin := v]> (_pin_states st)
        | None => <[pin := LOW]> (_pin_states st)
        end |}).

Definition output (pin state : Z) (st : MockState) : bool * MockState :=
  if bool_decide (is_Some (_pin_modes st !! pin)) then
    (true, {| _pin_modes := _pin_modes st;
              _pin_states := <[pin := state]> (_pin_states st) |})
  else (false, st).

Definition input (pin : Z) (st : MockState) : option Z * MockState :=
  (Some (default LOW (_pin_states st !! pin)), st).

Definition cleanup (st : MockState) : bool * MockState := (true, empty).

End Mock.

(** The controller calls [GPIO.setup(pin, GPIO.OUT, initial=initial_state)]. *)
Definition MockGPIO : Driver :=
  {| drv_state := Mock.MockState;
     GPIO_AVAILABLE := false;
     drv_setmode := Mock.setmode;
     drv_setup := fun pin initial => Mock.setup pin "OUT" (Some initial);
     drv_output := Mock.output;
     drv_input := Mock.input;
     drv_cleanup := Mock.cleanup |}.

(** Two more libraries, which are not in the source, to exercise failures of
    the library.  In the first [setmode] raises, as [RPi.GPIO] does when the
    board cannot be accessed; its other calls behave like the simulation. *)
Definition NoAccessGPIO : Driver :=
  {| drv_state := Mock.MockState;
     GPIO_AVAILABLE := true;
     drv_setmode := fun st => (false, st);
     drv_setup := fun pin initial => Mock.setup pin "OUT" (Some initial);
     drv_output := Mock.output;
     drv_input := Mock.input;
     drv_cleanup := Mock.cleanup |}.

(** The simulation with one faulty line: writing to [bad] raises. *)
Definition FaultyGPIO (bad : Z) : Driver :=
  {| drv_state := Mock.MockState;
     GPIO_AVAILABLE := false;
     drv_setmode := Mock.setmode;
     drv_setup := fun pin initial => Mock.setup pin "OUT" (Some initial);
     drv_output := fun pin level st =>
                     if bool_decide (pin = bad) then (false, st)
                     else Mock.output pin level st;
     drv_input := Mock.input;
     drv_cleanup := Mock.cleanup |}.

(** What an outcome returns, and the state it leaves. *)
Definition returned {drv A} (o : outcome drv A) : option A :=
  match o with
  | Ret a _ => Some a
  | _ => None
  end.

Definition final {drv A} (o : outcome drv A) : option (State drv) :=
  match o with
  | Ret _ s => Some s
  | Raise s => Some s
  | Hang => None
  end.

(** Run [m] in the state an outcome leaves, if it returned. *)
Definition and_then {drv A B} (o : outcome drv A) (m : M drv B) : outcome drv B :=
  match o with
  | Ret _ s => m s
  | Raise s => Raise s
  | Hang => Hang
  end.


(** The [(pin, success)] pairs of the log records written by [setup_pin],
    one per call. *)
Fixpoint setup_attempts (l : list log_entry) : list (Z * bool) :=
  match l with
  | [] => []
  | LogInvalidPin p :: l' => (p, false) :: setup_attempts l'
  | LogPinConfigured p _ :: l' => (p, true) :: setup_attempts l'
  | LogSetupError p :: l' => (p, false) :: setup_attempts l'
  | _ :: l' => setup_attempts l'
  end.

Definition ev_ok (e : drv_event) : bool :=
  match e with
  | EvSetmode ok | EvSetup _ _ ok | EvOutput _ _ ok | EvCleanup ok => ok
  | EvInput _ r => bool_decide (is_Some r)
  end.

(** The consistency of the registry: the configured pins are the keys of
    the cached levels. *)
Definition registry_consistent {drv} (s : State drv) : Prop :=
  dom (pin_states s) = configured_pins s.

(** ** Three properties of controller code *)

(** No exception leaves [m]. *)
Definition no_raise {drv A} (m : M drv A) : Prop :=
  ∀ s s', m s ≠ Raise s'.

(** [m] never blocks, whoever holds the lock: it does not take it. *)
Definition no_hang {drv A} (m : M drv A) : Prop :=
  ∀ s, m s ≠ Hang.

(** Started with the lock free, [m] ends, with the lock free. *)
Definition lock_safe {drv A} (m : M drv A) : Prop :=
  ∀ s, lock_held s = false ->
       match m s with
       | Ret _ s' | Raise s' => lock_held s' = false
       | Hang => False
       end.

(** [m] ends only in states where the registry is consistent. *)
Definition keeps_consistent {drv A} (m : M drv A) : Prop :=
  ∀ s, registry_consistent s ->
       match m s with
       | Ret _ s' | Raise s' => registry_consistent s'
       | Hang => True
       end.

(** ** Concrete controllers *)

(** The state of a fresh controller on the simulation driver. *)
Definition fresh : State MockGPIO :=
  Eval vm_compute in
    default (new_state (drv:=MockGPIO) Mock.empty) (final (__init__ (drv:=MockGPIO) Mock.empty)).

(** The controller after [setup_pin(17)]. *)
Definition with_pin_17 : State MockGPIO :=
  Eval vm_compute in default fresh (final (setup_pin 17 LOW fresh)).

(** The scenario of C7: a fresh controller, [setup_pins([17, 27])], then
    [turn_on(17)], then [get_all_pins_status()]. *)
Definition scenario_setup : outcome MockGPIO (list (Z * bool)) :=
  and_then (__init__ (drv:=MockGPIO) Mock.empty) (setup_pins [17; 27] LOW).

Definition scenario_turn_on : outcome MockGPIO bool :=
  and_then scenario_setup (turn_on 17).

Definition scenario_status : outcome MockGPIO (gmap Z pin_status) :=
  and_then scenario_turn_on get_all_pins_status.

(** Pins 17 and 27 configured [HIGH] on a board whose line 17 is faulty. *)
Definition faulty_board : State (FaultyGPIO 17) :=
  Eval vm_compute in
    default (new_state (drv:=FaultyGPIO 17) Mock.empty)
      (final (and_then (__init__ (drv:=FaultyGPIO 17) Mock.empty)
                (setup_pins [17; 27] HIGH))).

(** ** More of the request layer *)

Section Handlers.

Context {drv : Driver}.

Definition turn_pin_off (pin : Z) : M drv response :=
  try_except
    (bind (turn_off pin) (fun success =>
       if success then
         ret ([("status", JStr "success");
               ("message", JStr "turned OFF");
               ("pin", JInt pin);
               ("state", JStr "LOW")], 200)
       else
         ret ([("status", JStr "error");
               ("message", JStr "Failed to turn OFF");
               ("pin", JInt pin)], 500)))
    (ret ([("status", JStr "error"); ("message", JNull); ("pin", JInt pin)], 500)).

Definition cleanup_gpio : M drv response :=
  try_except
    (bind cleanup (fun _ =>
       ret ([("status", JStr "success");
             ("message", JStr "GPIO cleanup completed")], 200)))
    (ret ([("status", JStr "error"); ("message", JNull)], 500)).

End Handlers.

(** ** Invariants in general, and the ones of the controller *)

(** The state an outcome leaves, if any, satisfies [I]. *)
Definition ends_in {drv A} (I : State drv -> Prop) (o : outcome drv A) : Prop :=
  match o with
  | Ret _ s' | Raise s' => I s'
  | Hang => True
  end.

Definition preserves {drv A} (I : State drv -> Prop) (m : M drv A) : Prop :=
  ∀ s, I s -> ends_in I (m s).

(** The pin a call to the library is about. *)
Definition ev_pin (e : drv_event) : option Z :=
  match e with
  | EvSetup p _ _ | EvOutput p _ _ | EvInput p _ => Some p
  | EvSetmode _ | EvCleanup _ => None
  end.

Definition ev_valid (e : drv_event) : Prop :=
  ∀ p, ev_pin e = Some p -> p ∈ valid_pins.

(** Only valid pins are configured, and only valid pins were ever passed to
    the library. *)
Definition pins_valid {drv} (s : State drv) : Prop :=
  configured_pins s ⊆ valid_pins ∧ Forall ev_valid (gpio_calls s).

(** On the simulation driver: every configured pin has a mode, and the level
    the driver holds for it is the cached one. *)
Definition mock_coherent (s : State MockGPIO) : Prop :=
  ∀ p, p ∈ configured_pins s ->
       is_Some (Mock._pin_modes (gpio s) !! p) ∧
       ∃ v, Mock._pin_states (gpio s) !! p = Some v ∧ pin_states s !! p = Some v.

(** The pins an operation is about; [None] for the operations on all the
    configured pins. *)
Definition touched (o : Op) : option (list Z) :=
  match o with
  | OpSetupPin pin _ | OpTurnOn pin | OpTurnOff pin | OpToggle pin
  | OpGetPinState pin | OpPulse pin _ | OpBlink pin _ _ => Some [pin]
  | OpSetupPins pins _ => Some pins
  | OpGetConfiguredPins | OpIsPinConfigured _ | OpGetSystemInfo => Some []
  | OpGetAllPinsStatus | OpTurnAllOff | OpCleanup => None
  end.

(** The states that follow [s0] by public operations that return. *)
Inductive after {drv} (s0 : State drv) : State drv -> Prop :=
| after_refl : after s0 s0
| after_call o s v s' : after s0 s -> call o s = Ret v s' -> after s0 s'.

(** The calls of [GPIO.cleanup] in a trace. *)
Fixpoint cleanup_calls (l : list drv_event) : nat :=
  match l with
  | [] => 0
  | EvCleanup _ :: l' => S (cleanup_calls l')
  | _ :: l' => cleanup_calls l'
  end.


(** The cached level of [q] and whether [q] is configured. *)
Definition pin_view {drv} (q : Z) (v : option Z) (P : Prop) (s : State drv) : Prop :=
  pin_states s !! q = v ∧ (q ∈ configured_pins s ↔ P).

(** The flag is down and [GPIO.cleanup] has been called [n] times. *)
Definition released_with {drv} (n : nat) (s : State drv) : Prop :=
  is_initialized s = false ∧ cleanup_calls (gpio_calls s) = n.

(** [s'] is [s] with a longer log. *)
Definition only_logged {drv} (s s' : State drv) : Prop :=
  configured_pins s' = configured_pins s ∧
  pin_states s' = pin_states s ∧
  lock_held s' = lock_held s ∧
  is_initialized s' = is_initialized s ∧
  gpio s' = gpio s ∧
  gpio_calls s' = gpio_calls s.

(** [setup_pin] called on each pin of the list in turn, each call starting
    in the state the call before it left: the outcomes, and the last state. *)
Inductive setup_chain {drv} (initial_state : Z) :
    list Z -> State drv -> list bool -> State drv -> Prop :=
| setup_chain_nil s : setup_chain initial_state [] s [] s
| setup_chain_cons p pins s ok s1 outs s' :
    setup_pin p initial_state s = Ret ok s1 ->
    setup_chain initial_state pins s1 outs s' ->
    setup_chain initial_state (p :: pins) s (ok :: outs) s'.


(** What an operation about one pin returns when it rejects the pin. *)
Definition rejection (o : Op) : Value :=
  match o with
  | OpSetupPins pins _ => VResults (map (fun p => (p, false)) pins)
  | OpGetPinState _ => VLevel None
  | OpBlink _ times _ => VBool (bool_decide (times <= 0))
  | _ => VBool false
  end.

(** ** More concrete controllers *)

(** A library, not in the source, that behaves like the simulation except
    that the calls whose flag is [false] raise. *)
Definition FlakyGPIO (setup_ok output_ok input_ok cleanup_ok : bool) : Driver :=
  {| drv_state := Mock.MockState;
     GPIO_AVAILABLE := true;
     drv_setmode := Mock.setmode;
     drv_setup := fun pin initial st =>
                    if setup_ok then Mock.setup pin "OUT" (Some initial) st
                    else (false, st);
     drv_output := fun pin level st =>
                     if output_ok then Mock.output pin level st else (false, st);
     drv_input := fun pin st =>
                    if input_ok then Mock.input pin st else (None, st);
     drv_cleanup := fun st =>
                      if cleanup_ok then Mock.cleanup st else (false, st) |}.

(** A fresh controller on a library that cannot be released. *)
Definition no_release_board : State (FlakyGPIO true true true false) :=
  Eval vm_compute in
    default (new_state (drv:=FlakyGPIO true true true false) Mock.empty)
      (final (__init__ (drv:=FlakyGPIO true true true false) Mock.empty)).

(** Pin 17 configured on a library whose reads raise. *)
Definition no_read_board : State (FlakyGPIO true true false true) :=
  Eval vm_compute in
    default (new_state (drv:=FlakyGPIO true true false true) Mock.empty)
      (final (and_then (__init__ (drv:=FlakyGPIO true true false true) Mock.empty)
                (setup_pin 17 LOW))).

(** A fresh controller on a library whose writes raise. *)
Definition no_write_board : State (FlakyGPIO true false true true) :=
  Eval vm_compute in
    default (new_state (drv:=FlakyGPIO true false true true) Mock.empty)
      (final (__init__ (drv:=FlakyGPIO true false true true) Mock.empty)).



(** A fresh controller after [cleanup()], and then after [setup_pin(17)]. *)
Definition released_board : State MockGPIO :=
  Eval vm_compute in default fresh (final (cleanup fresh)).

Definition released_with_pin : State MockGPIO :=
  Eval vm_compute in
    default released_board (final (setup_pin 17 LOW released_board)).

(** * Properties *)

Lemma valid_pins_range (pin : Z) : pin ∈ valid_pins ↔ 2 <= pin <= 27.
Proof.
  unfold valid_pins. rewrite elem_of_list_to_set. split.
  - intros H. repeat (apply elem_of_cons in H as [-> | H]; [lia |]).
    by apply elem_of_nil in H.
  - intros H.
    assert (Hc : ∃ n : nat, (n < 26)%nat ∧ pin = 2 + Z.of_nat n).
    { exists (Z.to_nat (pin - 2)). lia. }
    destruct Hc as (n & Hn & ->).
    do 26 (destruct n as [| n]; [apply list_elem_of_In; simpl; lia |]). lia.
Qed.

Notation "x <- m ;; k" := (bind m (fun x => k))
  (at level 100, m at next level, right associativity).
Notation "m ;;; k" := (bind m (fun _ => k))
  (at level 100, right associativity).

(** ** Unfolding the monad *)

Ltac unfold_ops :=
  unfold setup_pin, turn_on, turn_off, get_pin_state, _validate_pin,
    _initialize_gpio, __init__, cleanup, turn_all_off.

Ltac unfold_monad :=
  unfold try_except, with_lock, bind, ret, raise, gets, modify, logger,
    GPIO_setmode, GPIO_setup, GPIO_output, GPIO_input, GPIO_cleanup,
    time_sleep.

(** Split on every test the goal still branches on: membership tests, the
    lock, the initialization flag and the results of the library. *)
Ltac case_split :=
  repeat (simpl;
          match goal with
          | |- context [bool_decide ?P] => destruct (bool_decide P) eqn:?
          | |- context [lock_held ?s] => is_var s; destruct (lock_held s) eqn:?
          | |- context [is_initialized ?s] =>
              is_var s; destruct (is_initialized s) eqn:?
          | |- context [drv_setmode ?d ?g] =>
              destruct (drv_setmode d g) as [[] ?] eqn:?
          | |- context [drv_setup ?d ?p ?i ?g] =>
              destruct (drv_setup d p i g) as [[] ?] eqn:?
          | |- context [drv_output ?d ?p ?l ?g] =>
              destruct (drv_output d p l g) as [[] ?] eqn:?
          | |- context [drv_input ?d ?p ?g] =>
              destruct (drv_input d p g) as [[?|] ?] eqn:?
          | |- context [drv_cleanup ?d ?g] =>
              destruct (drv_cleanup d g) as [[] ?] eqn:?
          | |- context [Qle_bool ?a ?b] => destruct (Qle_bool a b) eqn:?
          end);
  simpl.

(** ** Dictionaries *)

Lemma dict_get_set {V} (p k : Z) (v : V) d :
  dict_get p (dict_set k v d) = if bool_decide (k = p) then Some v else dict_get p d.
Proof.
  induction d as [| [k' v'] d IH]; simpl.
  - done.
  - destruct (bool_decide (k' = k)) eqn:E; simpl.
    + apply bool_decide_eq_true in E as ->. by destruct (bool_decide (k = p)).
    + rewrite IH. apply bool_decide_eq_false in E.
      destruct (bool_decide (k' = p)) eqn:E1; [| done].
      apply bool_decide_eq_true in E1 as ->.
      by rewrite bool_decide_eq_false_2 by congruence.
Qed.

Lemma dict_get_app {V} (p : Z) (d1 d2 : list (Z * V)) :
  dict_get p (d1 ++ d2) =
    match dict_get p d1 with Some v => Some v | None => dict_get p d2 end.
Proof.
  induction d1 as [| [k v] d1 IH]; simpl; [done |].
  by destruct (bool_decide (k = p)).
Qed.

Lemma dict_set_keys {V} (p k : Z) (v : V) d :
  p ∈ (dict_set k v d).*1 ↔ p = k ∨ p ∈ d.*1.
Proof.
  induction d as [| [k' v'] d IH]; simpl.
  - rewrite elem_of_cons, elem_of_nil. tauto.
  - destruct (bool_decide (k' = k)) eqn:E; simpl.
    + apply bool_decide_eq_true in E as ->. rewrite elem_of_cons. tauto.
    + rewrite !elem_of_cons, IH. tauto.
Qed.

Lemma dict_set_NoDup {V} (k : Z) (v : V) d :
  NoDup d.*1 -> NoDup (dict_set k v d).*1.
Proof.
  induction d as [| [k' v'] d IH]; simpl; intros Hd.
  - apply NoDup_singleton.
  - apply NoDup_cons in Hd as [Hk' Hd].
    destruct (bool_decide (k' = k)) eqn:E; simpl.
    + by apply NoDup_cons.
    + apply bool_decide_eq_false in E. apply NoDup_cons. split; [| auto].
      rewrite dict_set_keys. intros [-> | H]; done.
Qed.

Lemma dict_set_fresh {V} (k : Z) (v : V) d :
  k ∉ d.*1 -> dict_set k v d = d ++ [(k, v)].
Proof.
  induction d as [| [k' v'] d IH]; simpl; intros Hk; [done |].
  apply not_elem_of_cons in Hk as [Hne Hk].
  rewrite bool_decide_eq_false_2 by congruence. by rewrite IH.
Qed.

Lemma dict_fill_get {V} (p : Z) (l d : list (Z * V)) :
  dict_get p (dict_fill l d) =
    match dict_get p (reverse l) with Some v => Some v | None => dict_get p d end.
Proof.
  revert d. induction l as [| [k v] l IH]; intros d; simpl; [done |].
  rewrite reverse_cons, dict_get_app. unfold dict_fill in *. simpl.
  rewrite IH, dict_get_set. simpl.
  destruct (dict_get p (reverse l)); [done |].
  by destruct (bool_decide (k = p)).
Qed.

Lemma dict_fill_NoDup {V} (l d : list (Z * V)) :
  NoDup d.*1 -> NoDup (dict_fill l d).*1.
Proof.
  revert d. induction l as [| [k v] l IH]; intros d Hd; [done |].
  apply IH. by apply dict_set_NoDup.
Qed.

Lemma dict_fill_keys {V} (p : Z) (l d : list (Z * V)) :
  p ∈ (dict_fill l d).*1 ↔ p ∈ l.*1 ∨ p ∈ d.*1.
Proof.
  revert d. induction l as [| [k v] l IH]; intros d; simpl.
  - rewrite elem_of_nil. tauto.
  - unfold dict_fill in *. simpl. rewrite IH, dict_set_keys, elem_of_cons. tauto.
Qed.

Lemma dict_fill_fresh {V} (l d : list (Z * V)) :
  NoDup (d.*1 ++ l.*1) -> dict_fill l d = d ++ l.
Proof.
  revert d. induction l as [| [k v] l IH]; intros d Hd; simpl.
  - by rewrite app_nil_r.
  - unfold dict_fill in *. simpl in *.
    assert (Hk : k ∉ d.*1).
    { apply NoDup_app in Hd as (_ & Hd & _). intros Hk.
      apply (Hd k Hk), elem_of_cons. by left. }
    rewrite dict_set_fresh by done. rewrite IH.
    + by rewrite <- app_assoc.
    + rewrite fmap_app. simpl. by rewrite <- app_assoc.
Qed.

Lemma setup_attempts_app (l1 l2 : list log_entry) :
  setup_attempts (l1 ++ l2) = setup_attempts l1 ++ setup_attempts l2.
Proof.
  induction l1 as [| e l1 IH]; [done |].
  destruct e; simpl; by rewrite ?IH.
Qed.

Section Facts.

Context {drv : Driver}.
Implicit Types (s : State drv) (pin : Z).

(** ** [setup_pin] *)

Lemma setup_pin_invalid pin initial s :
  pin ∉ valid_pins ->
  setup_pin pin initial s = Ret false (add_log (LogInvalidPin pin) s).
Proof.
  intros H. unfold_ops. unfold_monad.
  rewrite bool_decide_eq_false_2 by done. reflexivity.
Qed.

Lemma setup_pin_valid pin initial s :
  pin ∈ valid_pins ->
  lock_held s = false ->
  setup_pin pin initial s =
    let r := drv_setup drv pin initial (gpio s) in
    if r.1 then
      Ret true
        (add_log (LogPinConfigured pin initial)
           (set_pin_states <[pin := initial]>
              (set_configured_pins (fun c => {[pin]} ∪ c)
                 (record_call r.2 (EvSetup pin initial true) s))))
    else
      Ret false
        (add_log (LogSetupError pin)
           (record_call r.2 (EvSetup pin initial false) s)).
Proof.
  intros H Hl. unfold_ops. unfold_monad.
  rewrite bool_decide_eq_true_2 by done. simpl. rewrite Hl.
  destruct (drv_setup drv pin initial (gpio s)) as [[] d]; simpl;
    destruct s; simpl in *; subst; reflexivity.
Qed.


(** ** [turn_on], [turn_off] and [get_pin_state] on a configured pin *)

Lemma turn_on_configured pin s :
  pin ∈ configured_pins s ->
  lock_held s = false ->
  turn_on pin s =
    let r := drv_output drv pin HIGH (gpio s) in
    if r.1 then
      Ret true
        (add_log (LogTurnedOn pin)
           (set_pin_states <[pin := HIGH]>
              (record_call r.2 (EvOutput pin HIGH true) s)))
    else
      Ret false
        (add_log (LogTurnOnError pin)
           (record_call r.2 (EvOutput pin HIGH false) s)).
Proof.
  intros H Hl. unfold_ops. unfold_monad.
  rewrite bool_decide_eq_true_2 by done. simpl. rewrite Hl.
  destruct (drv_output drv pin HIGH (gpio s)) as [[] d]; simpl;
    destruct s; simpl in *; subst; reflexivity.
Qed.

Lemma turn_off_configured pin s :
  pin ∈ configured_pins s ->
  lock_held s = false ->
  turn_off pin s =
    let r := drv_output drv pin LOW (gpio s) in
    if r.1 then
      Ret true
        (add_log (LogTurnedOff pin)
           (set_pin_states <[pin := LOW]>
              (record_call r.2 (EvOutput pin LOW true) s)))
    else
      Ret false
        (add_log (LogTurnOffError pin)
           (record_call r.2 (EvOutput pin LOW false) s)).
Proof.
  intros H Hl. unfold_ops. unfold_monad.
  rewrite bool_decide_eq_true_2 by done. simpl. rewrite Hl.
  destruct (drv_output drv pin LOW (gpio s)) as [[] d]; simpl;
    destruct s; simpl in *; subst; reflexivity.
Qed.

Lemma turn_off_configured_locked pin s :
  pin ∈ configured_pins s ->
  lock_held s = true ->
  turn_off pin s = Hang.
Proof.
  intros H Hl. unfold_ops. unfold_monad.
  rewrite bool_decide_eq_true_2 by done. simpl. by rewrite Hl.
Qed.

Lemma get_pin_state_unconfigured pin s :
  pin ∉ configured_pins s ->
  get_pin_state pin s = Ret None (add_log (LogNotConfigured pin) s).
Proof.
  intros H. unfold_ops. unfold_monad.
  rewrite bool_decide_eq_false_2 by done. reflexivity.
Qed.

Lemma get_pin_state_configured pin s :
  pin ∈ configured_pins s ->
  lock_held s = false ->
  get_pin_state pin s =
    let r := drv_input drv pin (gpio s) in
    match r.1 with
    | Some v =>
        Ret (Some v)
          (set_pin_states <[pin := v]>
             (record_call r.2 (EvInput pin (Some v)) s))
    | None =>
        Ret None
          (add_log (LogReadError pin) (record_call r.2 (EvInput pin None) s))
    end.
Proof.
  intros H Hl. unfold_ops. unfold_monad.
  rewrite bool_decide_eq_true_2 by done. simpl. rewrite Hl.
  destruct (drv_input drv pin (gpio s)) as [[v |] d]; simpl;
    destruct s; simpl in *; subst; reflexivity.
Qed.

(** ** On a pin that is not configured, [turn_on] and [turn_off] first run
    [setup_pin] with the default level *)

Lemma turn_on_unconfigured pin s :
  pin ∉ configured_pins s ->
  turn_on pin s =
    match setup_pin pin LOW (add_log (LogAutoConfigure pin) s) with
    | Ret true s1 =>
        try_except
          (with_lock
             (GPIO_output pin HIGH ;;;
              modify (set_pin_states <[pin := HIGH]>) ;;;
              logger (LogTurnedOn pin) ;;;
              ret true))
          (logger (LogTurnOnError pin) ;;; ret false) s1
    | Ret false s1 => Ret false s1
    | Raise s1 => Ret false (add_log (LogTurnOnError pin) s1)
    | Hang => Hang
    end.
Proof.
  intros H. unfold turn_on. unfold_monad.
  rewrite bool_decide_eq_false_2 by done. simpl.
  destruct (setup_pin pin LOW _) as [[] s1 | s1 |]; reflexivity.
Qed.

Lemma turn_off_unconfigured pin s :
  pin ∉ configured_pins s ->
  turn_off pin s =
    match setup_pin pin LOW (add_log (LogAutoConfigure pin) s) with
    | Ret true s1 =>
        try_except
          (with_lock
             (GPIO_output pin LOW ;;;
              modify (set_pin_states <[pin := LOW]>) ;;;
              logger (LogTurnedOff pin) ;;;
              ret true))
          (logger (LogTurnOffError pin) ;;; ret false) s1
    | Ret false s1 => Ret false s1
    | Raise s1 => Ret false (add_log (LogTurnOffError pin) s1)
    | Hang => Hang
    end.
Proof.
  intros H. unfold turn_off. unfold_monad.
  rewrite bool_decide_eq_false_2 by done. simpl.
  destruct (setup_pin pin LOW _) as [[] s1 | s1 |]; reflexivity.
Qed.

(** Once the pin is configured, what is left of [turn_on] is [turn_on]. *)
Lemma turn_on_write_phase pin s :
  pin ∈ configured_pins s ->
  try_except
    (with_lock
       (GPIO_output pin HIGH ;;;
        modify (set_pin_states <[pin := HIGH]>) ;;;
        logger (LogTurnedOn pin) ;;;
        ret true))
    (logger (LogTurnOnError pin) ;;; ret false) s
  = turn_on pin s.
Proof.
  intros H. unfold turn_on. unfold_monad.
  rewrite bool_decide_eq_true_2 by done. reflexivity.
Qed.

Lemma turn_off_write_phase pin s :
  pin ∈ configured_pins s ->
  try_except
    (with_lock
       (GPIO_output pin LOW ;;;
        modify (set_pin_states <[pin := LOW]>) ;;;
        logger (LogTurnedOff pin) ;;;
        ret true))
    (logger (LogTurnOffError pin) ;;; ret false) s
  = turn_off pin s.
Proof.
  intros H. unfold turn_off. unfold_monad.
  rewrite bool_decide_eq_true_2 by done. reflexivity.
Qed.

End Facts.

(** ** The three properties are closed under the constructs of the monad *)

Section Effects.

Context {drv : Driver}.
Implicit Types (s : State drv) (pin : Z).

Lemma no_raise_ret {A} (a : A) : no_raise (drv:=drv) (ret a).
Proof. by intros s s'. Qed.

Lemma no_raise_gets {A} (f : State drv -> A) : no_raise (drv:=drv) (gets f).
Proof. by intros s s'. Qed.

Lemma no_raise_logger e : no_raise (drv:=drv) (logger e).
Proof. by intros s s'. Qed.

Lemma no_raise_bind {A B} (m : M drv A) (f : A -> M drv B) :
  no_raise m -> (∀ a, no_raise (f a)) -> no_raise (x <- m ;; f x).
Proof.
  intros Hm Hf s s'. unfold bind.
  destruct (m s) as [a s1 | s1 |] eqn:E; [apply Hf | by apply Hm in E | done].
Qed.

Lemma no_raise_try {A} (body handler : M drv A) :
  no_raise handler -> no_raise (try_except body handler).
Proof.
  intros Hh s s'. unfold try_except.
  destruct (body s) as [a s1 | s1 |]; [done | apply Hh | done].
Qed.

Lemma no_raise_for_each {A B} (l : list B) (body : A -> B -> M drv A) acc :
  (∀ a x, no_raise (body a x)) -> no_raise (for_each l body acc).
Proof.
  intros Hb. revert acc.
  induction l as [| x l IH]; intros acc; simpl.
  - apply no_raise_ret.
  - apply no_raise_bind; auto.
Qed.

Lemma no_raise_if {A} (b : bool) (m1 m2 : M drv A) :
  no_raise m1 -> no_raise m2 -> no_raise (if b then m1 else m2).
Proof. by destruct b. Qed.

Lemma no_hang_ret {A} (a : A) : no_hang (drv:=drv) (ret a).
Proof. by intros s. Qed.

Lemma no_hang_modify f : no_hang (drv:=drv) (modify f).
Proof. by intros s. Qed.

Lemma no_hang_logger e : no_hang (drv:=drv) (logger e).
Proof. by intros s. Qed.

Lemma no_hang_gets {A} (f : State drv -> A) : no_hang (drv:=drv) (gets f).
Proof. by intros s. Qed.

Lemma no_hang_GPIO_setmode : no_hang (drv:=drv) GPIO_setmode.
Proof. intros s. unfold GPIO_setmode. by case_split. Qed.

Lemma no_hang_GPIO_setup pin i : no_hang (drv:=drv) (GPIO_setup pin i).
Proof. intros s. unfold GPIO_setup. by case_split. Qed.

Lemma no_hang_GPIO_output pin l : no_hang (drv:=drv) (GPIO_output pin l).
Proof. intros s. unfold GPIO_output. by case_split. Qed.

Lemma no_hang_GPIO_input pin : no_hang (drv:=drv) (GPIO_input pin).
Proof. intros s. unfold GPIO_input. by case_split. Qed.

Lemma no_hang_bind {A B} (m : M drv A) (f : A -> M drv B) :
  no_hang m -> (∀ a, no_hang (f a)) -> no_hang (x <- m ;; f x).
Proof.
  intros Hm Hf s. unfold bind.
  destruct (m s) as [a s1 | s1 |] eqn:E; [apply Hf | done | by apply Hm in E].
Qed.

Lemma lock_safe_ret {A} (a : A) : lock_safe (drv:=drv) (ret a).
Proof. by intros s Hl. Qed.

Lemma lock_safe_gets {A} (f : State drv -> A) : lock_safe (drv:=drv) (gets f).
Proof. by intros s Hl. Qed.

Lemma lock_safe_logger e : lock_safe (drv:=drv) (logger e).
Proof. by intros s Hl. Qed.

Lemma lock_safe_time_sleep d : lock_safe (drv:=drv) (time_sleep d).
Proof. intros s Hl. unfold time_sleep. by case_split. Qed.

Lemma lock_safe_bind {A B} (m : M drv A) (f : A -> M drv B) :
  lock_safe m -> (∀ a, lock_safe (f a)) -> lock_safe (x <- m ;; f x).
Proof.
  intros Hm Hf s Hl. unfold bind. specialize (Hm s Hl).
  destruct (m s) as [a s1 | s1 |]; [by apply Hf | done | done].
Qed.

Lemma lock_safe_try {A} (body handler : M drv A) :
  lock_safe body -> lock_safe handler -> lock_safe (try_except body handler).
Proof.
  intros Hb Hh s Hl. unfold try_except. specialize (Hb s Hl).
  destruct (body s) as [a s1 | s1 |]; [done | by apply Hh | done].
Qed.

Lemma lock_safe_with_lock {A} (body : M drv A) :
  no_hang body -> lock_safe (with_lock body).
Proof.
  intros Hb s Hl. unfold with_lock. rewrite Hl.
  destruct (body _) as [a s1 | s1 |] eqn:E; [done | done | by apply Hb in E].
Qed.

Lemma lock_safe_if {A} (b : bool) (m1 m2 : M drv A) :
  lock_safe m1 -> lock_safe m2 -> lock_safe (if b then m1 else m2).
Proof. by destruct b. Qed.

Lemma lock_safe_for_each {A B} (l : list B) (body : A -> B -> M drv A) acc :
  (∀ a x, lock_safe (body a x)) -> lock_safe (for_each l body acc).
Proof.
  intros Hb. revert acc.
  induction l as [| x l IH]; intros acc; simpl.
  - apply lock_safe_ret.
  - apply lock_safe_bind; auto.
Qed.

(** With the lock free, code that is [lock_safe] and lets no exception out
    returns. *)
Lemma lock_safe_returns {A} (m : M drv A) s :
  lock_safe m -> no_raise m -> lock_held s = false ->
  ∃ a s', m s = Ret a s' ∧ lock_held s' = false.
Proof.
  intros Hs Hr Hl. specialize (Hs s Hl).
  destruct (m s) as [a s1 | s1 |] eqn:E; [eauto | by apply Hr in E | done].
Qed.

Lemma keeps_ret {A} (a : A) : keeps_consistent (drv:=drv) (ret a).
Proof. by intros s H. Qed.

Lemma keeps_gets {A} (f : State drv -> A) : keeps_consistent (drv:=drv) (gets f).
Proof. by intros s H. Qed.

Lemma keeps_raise {A} : keeps_consistent (drv:=drv) (A:=A) raise.
Proof. by intros s H. Qed.

Lemma keeps_logger e : keeps_consistent (drv:=drv) (logger e).
Proof. by intros s H. Qed.

Lemma keeps_time_sleep d : keeps_consistent (drv:=drv) (time_sleep d).
Proof. intros s H. unfold time_sleep. by case_split. Qed.

Lemma keeps_bind {A B} (m : M drv A) (f : A -> M drv B) :
  keeps_consistent m -> (∀ a, keeps_consistent (f a)) ->
  keeps_consistent (x <- m ;; f x).
Proof.
  intros Hm Hf s H. unfold bind. specialize (Hm s H).
  destruct (m s) as [a s1 | s1 |]; [by apply Hf | done | done].
Qed.

Lemma keeps_try {A} (body handler : M drv A) :
  keeps_consistent body -> keeps_consistent handler ->
  keeps_consistent (try_except body handler).
Proof.
  intros Hb Hh s H. unfold try_except. specialize (Hb s H).
  destruct (body s) as [a s1 | s1 |]; [done | by apply Hh | done].
Qed.

Lemma keeps_with_lock {A} (body : M drv A) :
  keeps_consistent body -> keeps_consistent (with_lock body).
Proof.
  intros Hb s H. unfold with_lock. destruct (lock_held s); [done |].
  specialize (Hb (set_lock_held true s) H).
  destruct (body _) as [a s1 | s1 |]; done.
Qed.

Lemma keeps_if {A} (b : bool) (m1 m2 : M drv A) :
  keeps_consistent m1 -> keeps_consistent m2 ->
  keeps_consistent (if b then m1 else m2).
Proof. by destruct b. Qed.

Lemma keeps_for_each {A B} (l : list B) (body : A -> B -> M drv A) acc :
  (∀ a x, keeps_consistent (body a x)) ->
  keeps_consistent (for_each l body acc).
Proof.
  intros Hb. revert acc.
  induction l as [| x l IH]; intros acc; simpl.
  - apply keeps_ret.
  - apply keeps_bind; auto.
Qed.

End Effects.

Create HintDb no_raise.
Create HintDb lock_safe.
Create HintDb keeps.

#[local] Hint Resolve no_raise_ret no_raise_gets no_raise_logger no_raise_bind
  no_raise_try no_raise_for_each no_raise_if : no_raise.
#[local] Hint Resolve no_hang_ret no_hang_modify no_hang_logger no_hang_gets
  no_hang_GPIO_setmode no_hang_GPIO_setup no_hang_GPIO_output
  no_hang_GPIO_input no_hang_bind : lock_safe.
#[local] Hint Resolve lock_safe_ret lock_safe_gets lock_safe_logger
  lock_safe_time_sleep lock_safe_bind lock_safe_try lock_safe_with_lock
  lock_safe_if lock_safe_for_each : lock_safe.
#[local] Hint Resolve keeps_ret keeps_gets keeps_raise keeps_logger
  keeps_time_sleep keeps_bind keeps_try keeps_with_lock keeps_if
  keeps_for_each : keeps.

(** Finish a goal on the registry of an explicit state. *)
Ltac registry_solve :=
  repeat match goal with
         | H : bool_decide _ = true |- _ => apply bool_decide_eq_true in H
         | H : bool_decide _ = false |- _ => apply bool_decide_eq_false in H
         end;
  unfold registry_consistent in *; simpl in *;
  rewrite ?dom_insert_L, ?dom_empty_L;
  first [ done
        | congruence
        | match goal with
          | Hc : dom _ = _ |- _ =>
              rewrite Hc; apply subseteq_union_1_L, singleton_subseteq_l; done
          end ].

Section Operations.

Context {drv : Driver}.
Implicit Types (s : State drv) (pin : Z).

(** ** No public operation lets an exception out *)

Lemma no_raise_setup_pin pin i : no_raise (drv:=drv) (setup_pin pin i).
Proof. unfold setup_pin. eauto with no_raise. Qed.

Lemma no_raise_turn_on pin : no_raise (drv:=drv) (turn_on pin).
Proof. unfold turn_on. eauto with no_raise. Qed.

Lemma no_raise_turn_off pin : no_raise (drv:=drv) (turn_off pin).
Proof. unfold turn_off. eauto with no_raise. Qed.

Lemma no_raise_get_pin_state pin : no_raise (drv:=drv) (get_pin_state pin).
Proof. unfold get_pin_state. eauto with no_raise. Qed.

Lemma no_raise_call (o : Op) : no_raise (drv:=drv) (call o).
Proof.
  pose proof no_raise_setup_pin. pose proof no_raise_turn_on.
  pose proof no_raise_turn_off. pose proof no_raise_get_pin_state.
  destruct o; simpl;
    unfold setup_pins, toggle, get_all_pins_status, pulse, blink,
      turn_all_off, cleanup, get_configured_pins, is_pin_configured,
      get_system_info;
    eauto 12 with no_raise.
Qed.

(** ** With the lock free, every operation but [cleanup] returns *)

Lemma lock_safe_setup_pin pin i : lock_safe (drv:=drv) (setup_pin pin i).
Proof. unfold setup_pin, _validate_pin. eauto 12 with lock_safe. Qed.

Lemma lock_safe_turn_on pin : lock_safe (drv:=drv) (turn_on pin).
Proof.
  pose proof lock_safe_setup_pin. unfold turn_on. eauto 12 with lock_safe.
Qed.

Lemma lock_safe_turn_off pin : lock_safe (drv:=drv) (turn_off pin).
Proof.
  pose proof lock_safe_setup_pin. unfold turn_off. eauto 12 with lock_safe.
Qed.

Lemma lock_safe_get_pin_state pin : lock_safe (drv:=drv) (get_pin_state pin).
Proof. unfold get_pin_state. eauto 12 with lock_safe. Qed.

Lemma lock_safe_blink_loop n pin i : lock_safe (drv:=drv) (blink_loop n pin i).
Proof.
  pose proof lock_safe_turn_on. pose proof lock_safe_turn_off.
  induction n as [| n IH]; simpl; eauto 12 with lock_safe.
Qed.

Lemma lock_safe_call (o : Op) : o ≠ OpCleanup -> lock_safe (drv:=drv) (call o).
Proof.
  pose proof lock_safe_setup_pin. pose proof lock_safe_turn_on.
  pose proof lock_safe_turn_off. pose proof lock_safe_get_pin_state.
  pose proof lock_safe_blink_loop.
  intros Ho. destruct o; try done; simpl;
    unfold setup_pins, toggle, get_all_pins_status, pulse, blink,
      turn_all_off, get_configured_pins, is_pin_configured, get_system_info;
    eauto 12 with lock_safe.
Qed.

(** ** Every operation keeps the registry consistent *)

Lemma keeps_setup_pin pin i : keeps_consistent (drv:=drv) (setup_pin pin i).
Proof.
  intros s Hc. unfold_ops. unfold_monad. case_split; registry_solve.
Qed.

Lemma setup_pin_true_configured pin i s s1 :
  setup_pin pin i s = Ret true s1 -> pin ∈ configured_pins s1.
Proof.
  unfold setup_pin, _validate_pin. unfold_monad. case_split;
    intros [= <-]; simpl; apply elem_of_union_l, elem_of_singleton; done.
Qed.

Lemma keeps_turn_on pin : keeps_consistent (drv:=drv) (turn_on pin).
Proof.
  assert (Hcfg : ∀ s, pin ∈ configured_pins s -> registry_consistent s ->
            match turn_on pin s with
            | Ret _ s' | Raise s' => registry_consistent s'
            | Hang => True
            end).
  { intros s Hin Hc. unfold turn_on. unfold_monad.
    rewrite bool_decide_eq_true_2 by done. case_split; registry_solve. }
  intros s Hc. destruct (decide (pin ∈ configured_pins s)) as [Hin | Hin];
    [by apply Hcfg |].
  rewrite turn_on_unconfigured by done.
  pose proof (keeps_setup_pin pin LOW (add_log (LogAutoConfigure pin) s) Hc) as Hs.
  destruct (setup_pin pin LOW _) as [[] s1 | s1 |] eqn:E; try done.
  apply setup_pin_true_configured in E.
  rewrite turn_on_write_phase by done. by apply Hcfg.
Qed.

Lemma keeps_turn_off pin : keeps_consistent (drv:=drv) (turn_off pin).
Proof.
  assert (Hcfg : ∀ s, pin ∈ configured_pins s -> registry_consistent s ->
            match turn_off pin s with
            | Ret _ s' | Raise s' => registry_consistent s'
            | Hang => True
            end).
  { intros s Hin Hc. unfold turn_off. unfold_monad.
    rewrite bool_decide_eq_true_2 by done. case_split; registry_solve. }
  intros s Hc. destruct (decide (pin ∈ configured_pins s)) as [Hin | Hin];
    [by apply Hcfg |].
  rewrite turn_off_unconfigured by done.
  pose proof (keeps_setup_pin pin LOW (add_log (LogAutoConfigure pin) s) Hc) as Hs.
  destruct (setup_pin pin LOW _) as [[] s1 | s1 |] eqn:E; try done.
  apply setup_pin_true_configured in E.
  rewrite turn_off_write_phase by done. by apply Hcfg.
Qed.

Lemma keeps_get_pin_state pin : keeps_consistent (drv:=drv) (get_pin_state pin).
Proof.
  intros s Hc. unfold_ops. unfold_monad. case_split; registry_solve.
Qed.

Lemma keeps_blink_loop n pin i : keeps_consistent (drv:=drv) (blink_loop n pin i).
Proof.
  pose proof keeps_turn_on. pose proof keeps_turn_off.
  induction n as [| n IH]; simpl; eauto 12 with keeps.
Qed.

Lemma keeps_turn_all_off : keeps_consistent (drv:=drv) turn_all_off.
Proof.
  pose proof keeps_turn_off. unfold turn_all_off. eauto 12 with keeps.
Qed.

(** The end of [cleanup]: the library is released, then both containers are
    cleared. *)
Lemma keeps_release :
  keeps_consistent (drv:=drv)
    (GPIO_cleanup ;;;
     modify (set_configured_pins (fun _ => ∅)) ;;;
     modify (set_pin_states (fun _ => ∅)) ;;;
     modify (set_is_initialized false) ;;;
     logger LogCleanupDone).
Proof. intros s Hc. unfold_monad. case_split; registry_solve. Qed.

Lemma keeps_cleanup : keeps_consistent (drv:=drv) cleanup.
Proof.
  pose proof keeps_turn_all_off. pose proof keeps_release.
  unfold cleanup. eauto 12 with keeps.
Qed.

Lemma keeps_call (o : Op) : keeps_consistent (drv:=drv) (call o).
Proof.
  pose proof keeps_setup_pin. pose proof keeps_turn_on.
  pose proof keeps_turn_off. pose proof keeps_get_pin_state.
  pose proof keeps_blink_loop. pose proof keeps_turn_all_off.
  pose proof keeps_cleanup.
  destruct o; simpl;
    unfold setup_pins, toggle, get_all_pins_status, pulse, blink,
      get_configured_pins, is_pin_configured, get_system_info;
    eauto 12 with keeps.
Qed.

Lemma keeps__initialize_gpio : keeps_consistent (drv:=drv) _initialize_gpio.
Proof.
  intros s Hc. unfold_ops. unfold_monad. case_split; registry_solve.
Qed.

End Operations.

(** * The claims *)

Section Claims.

Context {drv : Driver}.
Implicit Types (s : State drv) (pin : Z).

(** ** [cleanup] *)

Lemma turn_all_off_locked s :
  lock_held s = true ->
  configured_pins s ≠ ∅ ->
  turn_all_off s = Hang.
Proof.
  intros Hl Hne. unfold turn_all_off, try_except, bind, gets.
  destruct (elements (configured_pins s)) as [| p l] eqn:E.
  { by apply elements_empty_inv, leibniz_equiv in E. }
  assert (Hp : p ∈ configured_pins s).
  { apply elem_of_elements. rewrite E. apply elem_of_cons. by left. }
  simpl. unfold bind. by rewrite turn_off_configured_locked.
Qed.

Lemma cleanup_blocks s :
  is_initialized s = true ->
  configured_pins s ≠ ∅ ->
  cleanup s = Hang.
Proof.
  intros Hi Hne. unfold cleanup, try_except, with_lock.
  destruct (lock_held s); [done |].
  unfold bind at 1. unfold gets at 1. simpl. rewrite Hi.
  unfold bind at 1. by rewrite turn_all_off_locked.
Qed.

Lemma cleanup_released s :
  is_initialized s = false ->
  lock_held s = false ->
  cleanup s = Ret tt s.
Proof.
  intros Hi Hl. unfold cleanup. unfold_monad. rewrite Hl. simpl. rewrite Hi.
  destruct s; simpl in *; by subst.
Qed.

Lemma cleanup_without_pins s :
  is_initialized s = true ->
  lock_held s = false ->
  configured_pins s = ∅ ->
  cleanup s =
    let r := drv_cleanup drv (gpio s) in
    if r.1 then
      Ret tt
        {| configured_pins := ∅; pin_states := ∅; lock_held := false;
           is_initialized := false; gpio := r.2;
           gpio_calls := gpio_calls s ++ [EvCleanup true];
           log := (log s ++ [LogAllOff]) ++ [LogCleanupDone] |}
    else
      Ret tt
        {| configured_pins := ∅; pin_states := pin_states s;
           lock_held := false; is_initialized := true; gpio := r.2;
           gpio_calls := gpio_calls s ++ [EvCleanup false];
           log := (log s ++ [LogAllOff]) ++ [LogCleanupError] |}.
Proof.
  intros Hi Hl He. unfold cleanup, turn_all_off. unfold_monad.
  rewrite Hl. simpl. rewrite Hi.
  change (configured_pins (set_lock_held true s)) with (configured_pins s).
  rewrite He, elements_empty. simpl. unfold modify. simpl.
  destruct (drv_cleanup drv (gpio s)) as [[] d]; simpl;
    destruct s; simpl in *; by subst.
Qed.

(** With no pin configured, [cleanup] returns, twice in a row too, and the
    set of configured pins is empty both times. *)
Lemma cleanup_twice_without_pins s :
  lock_held s = false ->
  configured_pins s = ∅ ->
  ∃ s1 s2,
    cleanup s = Ret tt s1 ∧ cleanup s1 = Ret tt s2 ∧
    configured_pins s1 = ∅ ∧ configured_pins s2 = ∅.
Proof.
  assert (Hone : ∀ s0, lock_held s0 = false -> configured_pins s0 = ∅ ->
            ∃ s1, cleanup s0 = Ret tt s1 ∧ lock_held s1 = false ∧
                  configured_pins s1 = ∅).
  { intros s0 Hl He. destruct (is_initialized s0) eqn:Hi.
    - rewrite cleanup_without_pins by done. simpl.
      destruct (drv_cleanup drv (gpio s0)).1; eauto.
    - rewrite cleanup_released by done. eauto. }
  intros Hl He.
  destruct (Hone s Hl He) as (s1 & H1 & Hl1 & He1).
  destruct (Hone s1 Hl1 He1) as (s2 & H2 & _ & He2).
  by exists s1, s2.
Qed.

(** C1, where the code departs from the claim: [cleanup] takes the lock and
    calls [turn_all_off] while holding it; [turn_off] then waits for the same
    lock.  With the controller initialized and at least one pin configured,
    [cleanup] never returns: the library is not released and the registry is
    not cleared. *)
Theorem cleanup_blocks_with_configured_pin s :
  is_initialized s = true ->
  configured_pins s ≠ ∅ ->
  cleanup s = Hang.
Proof. apply cleanup_blocks. Qed.

(** C2, where the code departs from the claim: for a pin that is not
    configured [get_pin_state] returns [None], but the status handler answers
    with status "success" and state "LOW". *)
Theorem get_pin_status_unconfigured pin s :
  pin ∉ configured_pins s ->
  get_pin_state pin s = Ret None (add_log (LogNotConfigured pin) s) ∧
  get_pin_status pin s =
    Ret ([("status", JStr "success"); ("pin", JInt pin);
          ("state", JStr "LOW"); ("value", JNull)], 200)
        (add_log (LogNotConfigured pin) s).
Proof.
  intros H. split; [by apply get_pin_state_unconfigured |].
  unfold get_pin_status, try_except, bind.
  by rewrite get_pin_state_unconfigured.
Qed.

(** C3: for a pin outside 2..27, [setup_pin] returns [False] without calling
    the library and without touching the registry; it only logs the
    rejection. *)
Theorem setup_pin_rejects_invalid_pin pin initial_state s :
  ¬ (2 <= pin <= 27) ->
  setup_pin pin initial_state s = Ret false (add_log (LogInvalidPin pin) s) ∧
  gpio_calls (add_log (LogInvalidPin pin) s) = gpio_calls s ∧
  gpio (add_log (LogInvalidPin pin) s) = gpio s ∧
  configured_pins (add_log (LogInvalidPin pin) s) = configured_pins s ∧
  pin_states (add_log (LogInvalidPin pin) s) = pin_states s.
Proof.
  intros H. split; [| done].
  apply setup_pin_invalid. by rewrite valid_pins_range.
Qed.

(** ** [turn_all_off] *)

(** One write of [LOW] to a configured pin. *)
Lemma turn_off_step p s :
  p ∈ configured_pins s ->
  lock_held s = false ->
  ∃ ok s1,
    turn_off p s = Ret ok s1 ∧
    configured_pins s1 = configured_pins s ∧
    lock_held s1 = false ∧
    gpio_calls s1 = gpio_calls s ++ [EvOutput p LOW ok] ∧
    (ok = true -> pin_states s1 !! p = Some LOW) ∧
    (∀ q, pin_states s !! q = Some LOW -> pin_states s1 !! q = Some LOW).
Proof.
  intros Hp Hl. rewrite turn_off_configured by done. simpl.
  destruct (drv_output drv p LOW (gpio s)) as [[] d]; simpl;
    eexists _, _; (split; [reflexivity |]); simpl; repeat split; try done.
  - intros _. apply lookup_insert_eq.
  - intros q Hq. destruct (decide (p = q)) as [-> | Hne].
    + apply lookup_insert_eq.
    + by rewrite lookup_insert_ne.
Qed.

(** The loop of [turn_all_off] over pins that are all configured: one write
    of [LOW] per pin, whatever the earlier writes did. *)
Lemma turn_off_loop (l : list Z) (acc : bool) s :
  (∀ p, p ∈ l -> p ∈ configured_pins s) ->
  lock_held s = false ->
  ∃ s' evs,
    for_each l
      (fun success pin =>
         ok <- turn_off pin ;; ret (if negb ok then false else success))
      acc s
    = Ret (acc && forallb ev_ok evs) s' ∧
    gpio_calls s' = gpio_calls s ++ evs ∧
    Forall2 (fun p e => ∃ ok, e = EvOutput p LOW ok) l evs ∧
    configured_pins s' = configured_pins s ∧
    lock_held s' = false ∧
    (∀ p, EvOutput p LOW true ∈ evs -> pin_states s' !! p = Some LOW) ∧
    (∀ p, pin_states s !! p = Some LOW -> pin_states s' !! p = Some LOW).
Proof.
  revert acc s. induction l as [| p l IH]; intros acc s Hin Hl.
  - exists s, []. simpl. unfold ret. rewrite andb_true_r, app_nil_r.
    repeat split; try done. intros p H. by apply elem_of_nil in H.
  - assert (Hp : p ∈ configured_pins s) by (apply Hin, elem_of_cons; by left).
    destruct (turn_off_step p s Hp Hl) as
      (ok & s1 & Hrun1 & Hc1 & Hl1 & Hg1 & Hp1 & Hk1).
    destruct (IH (if negb ok then false else acc) s1) as
      (s' & evs & Hrun & Hg & Hf & Hc & Hl' & Hlow & Hkeep).
    { intros q Hq. rewrite Hc1. apply Hin, elem_of_cons. by right. }
    { done. }
    exists s', (EvOutput p LOW ok :: evs).
    split.
    { simpl. unfold bind at 1. unfold bind at 1. rewrite Hrun1. unfold ret at 1.
      rewrite Hrun. f_equal. destruct ok; simpl; [done |].
      by rewrite andb_false_r. }
    split; [by rewrite Hg, Hg1, <- app_assoc |].
    split; [constructor; eauto |].
    split; [congruence |]. split; [done |]. split.
    + intros q [Hq | Hq]%elem_of_cons.
      * injection Hq as -> <-. by apply Hkeep, Hp1.
      * by apply Hlow.
    + intros q Hq. by apply Hkeep, Hk1.
Qed.

(** C4: called with the lock free, [turn_all_off] writes [LOW] once to every
    configured pin, whatever the earlier writes did; it returns [True]
    exactly when every write succeeded; every pin whose own write succeeded
    is recorded [LOW]; so, when the writes fail on one pin only, every other
    configured pin has been driven [LOW]. *)
Theorem turn_all_off_best_effort s :
  lock_held s = false ->
  ∃ b s' evs,
    turn_all_off s = Ret b s' ∧
    gpio_calls s' = gpio_calls s ++ evs ∧
    Forall2 (fun p e => ∃ ok, e = EvOutput p LOW ok)
      (elements (configured_pins s)) evs ∧
    (b = true ↔ ∀ e, e ∈ evs -> ev_ok e = true) ∧
    (∀ p, p ∈ configured_pins s ->
       (EvOutput p LOW true ∈ evs ∧ pin_states s' !! p = Some LOW) ∨
       EvOutput p LOW false ∈ evs) ∧
    (∀ q, (∀ p, EvOutput p LOW false ∈ evs -> p = q) ->
          ∀ p, p ∈ configured_pins s -> p ≠ q ->
               EvOutput p LOW true ∈ evs ∧ pin_states s' !! p = Some LOW) ∧
    configured_pins s' = configured_pins s.
Proof.
  intros Hl.
  destruct (turn_off_loop (elements (configured_pins s)) true s) as
    (s1 & evs & Hrun & Hg & Hf & Hc & Hl1 & Hlow & _).
  { intros p. by rewrite elem_of_elements. }
  { done. }
  assert (Hatt : ∀ p, p ∈ configured_pins s ->
            (EvOutput p LOW true ∈ evs ∧
             pin_states s1 !! p = Some LOW) ∨ EvOutput p LOW false ∈ evs).
  { intros p Hp. apply elem_of_elements in Hp.
    destruct (proj1 (list_elem_of_lookup _ _) Hp) as [i Hi].
    destruct (Forall2_lookup_l _ _ _ _ _ Hf Hi) as (e & He & [ok ->]).
    apply list_elem_of_lookup_2 in He.
    destruct ok; [left; split; [done | by apply Hlow] | by right]. }
  simpl in Hrun.
  set (s' := add_log (if forallb ev_ok evs then LogAllOff else LogSomeNotOff) s1).
  exists (forallb ev_ok evs), s', evs.
  split.
  { unfold turn_all_off, try_except. unfold bind at 1. unfold gets at 1.
    unfold bind at 1. rewrite Hrun. unfold bind, ret. subst s'.
    by destruct (forallb ev_ok evs). }
  split; [done |]. split; [done |]. split.
  { rewrite forallb_forall. split; intros H e He; apply H;
      by apply list_elem_of_In. }
  split; [done |]. split; [| done].
  intros q Hq p Hp Hne. destruct (Hatt p Hp) as [H | H]; [done |].
  by apply Hq in H.
Qed.

(** ** [setup_pins] *)

(** One call of [setup_pin]: it returns, and leaves one record in the log. *)
Lemma setup_pin_step pin initial_state s :
  lock_held s = false ->
  ∃ ok s1,
    setup_pin pin initial_state s = Ret ok s1 ∧
    lock_held s1 = false ∧
    setup_attempts (log s1) = setup_attempts (log s) ++ [(pin, ok)].
Proof.
  intros Hl. destruct (decide (pin ∈ valid_pins)) as [Hv | Hv].
  - rewrite setup_pin_valid by done. simpl.
    destruct (drv_setup drv pin initial_state (gpio s)) as [[] d]; simpl;
      eexists _, _; (split; [reflexivity |]); simpl;
      by rewrite setup_attempts_app.
  - rewrite setup_pin_invalid by done.
    eexists _, _; (split; [reflexivity |]); simpl.
    by rewrite setup_attempts_app.
Qed.

Lemma setup_pins_loop (pins : list Z) initial_state (acc : list (Z * bool)) s :
  lock_held s = false ->
  ∃ outs s',
    for_each pins
      (fun results pin =>
         ok <- setup_pin pin initial_state ;; ret (dict_set pin ok results))
      acc s
    = Ret (dict_fill (zip pins outs) acc) s' ∧
    length outs = length pins ∧
    lock_held s' = false ∧
    setup_attempts (log s') = setup_attempts (log s) ++ zip pins outs ∧
    setup_chain initial_state pins s outs s'.
Proof.
  revert acc s. induction pins as [| p pins IH]; intros acc s Hl.
  - exists [], s. simpl. rewrite app_nil_r.
    do 4 (split; [done |]). constructor.
  - destruct (setup_pin_step p initial_state s Hl) as (ok & s1 & Hrun1 & Hl1 & Hlog1).
    destruct (IH (dict_set p ok acc) s1 Hl1) as
      (outs & s' & Hrun & Hlen & Hl' & Hlog & Hchain).
    exists (ok :: outs), s'. split.
    { simpl. unfold bind at 1. unfold bind at 1. rewrite Hrun1.
      unfold ret at 1. by rewrite Hrun. }
    split; [simpl; by rewrite Hlen |]. split; [done |].
    split; [simpl; by rewrite Hlog, Hlog1, <- app_assoc |].
    by econstructor.
Qed.

Lemma zip_fst_same_length {A B} (l : list A) (k : list B) :
  length k = length l -> (zip l k).*1 = l.
Proof.
  revert k. induction l as [| x l IH]; intros [| y k] Hlen; simpl in *;
    try done. f_equal. apply IH. lia.
Qed.

(** C5: called with the lock free, [setup_pins] returns; what it does is
    [setup_pin] applied to every pin of the input, in the order of the input
    and whatever the earlier calls returned: the outcomes [outs] are those of
    [setup_pin] on each pin, started in the state the call before it left
    ([setup_chain]), and the state [setup_pins] leaves is the last of these
    but for the two summary messages in the log.  The log holds one record
    per call.  The dictionary returned has exactly one entry for each pin of
    the input, holding the outcome of the last call for that pin; with no pin
    repeated in the input it has one entry per position, in the order of the
    input. *)
Theorem setup_pins_attempts_every_pin (pins : list Z) initial_state s :
  lock_held s = false ->
  ∃ res s' outs,
    setup_pins pins initial_state s = Ret res s' ∧
    (∃ s1, setup_chain initial_state pins s outs s1 ∧ only_logged s1 s') ∧
    length outs = length pins ∧
    setup_attempts (log s') = setup_attempts (log s) ++ zip pins outs ∧
    NoDup res.*1 ∧
    (∀ p, p ∈ res.*1 ↔ p ∈ pins) ∧
    (∀ p, dict_get p res = dict_get p (reverse (zip pins outs))) ∧
    (NoDup pins -> res = zip pins outs).
Proof.
  intros Hl.
  destruct (setup_pins_loop pins initial_state [] s Hl) as
    (outs & s1 & Hrun & Hlen & Hl1 & Hlog & Hchain).
  set (res := dict_fill (zip pins outs) []) in *.
  assert (Hcont : ∃ s', setup_pins pins initial_state s = Ret res s' ∧
                        setup_attempts (log s') = setup_attempts (log s1) ∧
                        only_logged s1 s').
  { unfold setup_pins. unfold bind at 1. rewrite Hrun.
    unfold bind, ret, logger, modify.
    destruct (bool_decide (_ = [])), (bool_decide (_ = []));
      eexists; (split; [reflexivity |]); (split; [| done]); simpl;
      rewrite ?setup_attempts_app; simpl; by rewrite ?app_nil_r. }
  destruct Hcont as (s' & Hrun' & Hlog' & Honly).
  exists res, s', outs. split; [done |]. split; [by exists s1 |].
  split; [done |].
  split; [by rewrite Hlog' |]. split.
  { apply dict_fill_NoDup. simpl. apply NoDup_nil_2. }
  split.
  { intros p. subst res. rewrite dict_fill_keys, zip_fst_same_length by done.
    simpl. rewrite elem_of_nil. tauto. }
  split.
  { intros p. subst res. rewrite dict_fill_get. simpl.
    by destruct (dict_get p (reverse (zip pins outs))). }
  intros Hnd. subst res. rewrite dict_fill_fresh; [done |].
  simpl. by rewrite zip_fst_same_length.
Qed.

(** ** Writing to a pin that is not configured *)

(** C6: on a pin that is not configured, [turn_on] and [turn_off] first call
    [setup_pin] with the default level [LOW], hence with its check of the pin
    number; when that call returns [False] they return [False]; otherwise the
    pin is configured and they go on as on a configured pin, returning
    [False] when the write to the library fails. *)
Theorem set_level_auto_configures pin s :
  pin ∉ configured_pins s ->
  lock_held s = false ->
  ∃ ok s1,
    setup_pin pin LOW (add_log (LogAutoConfigure pin) s) = Ret ok s1 ∧
    (ok = true ↔ 2 <= pin <= 27 ∧ (drv_setup drv pin LOW (gpio s)).1 = true) ∧
    if ok then
      pin ∈ configured_pins s1 ∧
      pin_states s1 !! pin = Some LOW ∧
      turn_on pin s = turn_on pin s1 ∧
      turn_off pin s = turn_off pin s1 ∧
      (∃ s2, turn_on pin s1 = Ret (drv_output drv pin HIGH (gpio s1)).1 s2) ∧
      (∃ s2, turn_off pin s1 = Ret (drv_output drv pin LOW (gpio s1)).1 s2)
    else
      turn_on pin s = Ret false s1 ∧ turn_off pin s = Ret false s1.
Proof.
  intros Hn Hl.
  rewrite (turn_on_unconfigured pin s Hn), (turn_off_unconfigured pin s Hn).
  destruct (decide (pin ∈ valid_pins)) as [Hv | Hv].
  - rewrite setup_pin_valid by done. simpl.
    destruct (drv_setup drv pin LOW (gpio s)) as [[] d] eqn:E; simpl.
    + eexists true, _. split; [reflexivity |].
      split; [by rewrite <- valid_pins_range |].
      match goal with
      | |- context [turn_on pin ?s1] =>
          assert (Hin : pin ∈ configured_pins s1)
            by (simpl; apply elem_of_union_l, elem_of_singleton; done);
          assert (Hl1 : lock_held s1 = false) by done
      end.
      split; [done |]. split; [simpl; apply lookup_insert_eq |].
      split; [by rewrite turn_on_write_phase |].
      split; [by rewrite turn_off_write_phase |].
      rewrite turn_on_configured, turn_off_configured by done.
      split; case_split; eauto.
    + eexists false, _. split; [reflexivity |].
      split; [| done]. split; [done | intros [_ [=]]].
  - rewrite setup_pin_invalid by done.
    eexists false, _. split; [reflexivity |].
    split; [| done]. split; [done |].
    intros [Hr _]. by apply valid_pins_range in Hr.
Qed.

(** ** The constructor *)

Lemma init_result (d : drv_state drv) :
  __init__ d =
    let r := drv_setmode drv d in
    if r.1 then
      Ret tt
        {| configured_pins := ∅; pin_states := ∅; lock_held := false;
           is_initialized := true; gpio := r.2;
           gpio_calls := [EvSetmode true]; log := [LogGpioInitialized] |}
    else
      Raise
        {| configured_pins := ∅; pin_states := ∅; lock_held := false;
           is_initialized := false; gpio := r.2;
           gpio_calls := [EvSetmode false]; log := [LogInitError] |}.
Proof.
  unfold __init__, _initialize_gpio. unfold_monad. simpl.
  by destruct (drv_setmode drv d) as [[] d'].
Qed.

(** ** Between two calls the lock is free *)

Lemma locked_block_unlocks {A} (body k : M drv A) e s v s' :
  (∀ s0, ∃ a, k s0 = Ret a (add_log e s0)) ->
  lock_held s = false ->
  try_except (with_lock body) k s = Ret v s' ->
  lock_held s' = false.
Proof.
  intros Hk Hl. unfold try_except, with_lock. rewrite Hl.
  destruct (body _) as [a s1 | s1 |]; simpl; [by intros [= _ <-] | | done].
  destruct (Hk (set_lock_held false s1)) as [a ->]. by intros [= _ <-].
Qed.

Lemma cleanup_unlocks s v s' :
  lock_held s = false -> call OpCleanup s = Ret v s' -> lock_held s' = false.
Proof.
  intros Hl. simpl. unfold bind at 1.
  destruct (cleanup s) as [a s1 | s1 |] eqn:E; [| done | done].
  unfold ret. intros [= _ <-]. revert E. unfold cleanup.
  apply (locked_block_unlocks _ _ LogCleanupError); [| done].
  intros s0. by exists tt.
Qed.

Lemma reachable_lock_free s : reachable s -> lock_held s = false.
Proof.
  induction 1 as [d s Hinit | o s v s' Hr IH Hcall].
  - rewrite init_result in Hinit. simpl in Hinit.
    destruct (drv_setmode drv d).1; [| done]. by injection Hinit as <-.
  - assert (Hcases : o = OpCleanup ∨ o ≠ OpCleanup)
      by (destruct o; (by left) || (by right)).
    destruct Hcases as [-> | Ho].
    + by eapply cleanup_unlocks.
    + pose proof (lock_safe_call o Ho s IH) as Hs. by rewrite Hcall in Hs.
Qed.

(** ** What a failing call to the library becomes *)

Lemma pulse_failed_write pin duration s :
  pin ∈ configured_pins s ->
  lock_held s = false ->
  (drv_output drv pin HIGH (gpio s)).1 = false ->
  returned (pulse pin duration s) = Some false.
Proof.
  intros Hin Hl E. unfold pulse, try_except, bind.
  rewrite turn_on_configured by done. simpl. by rewrite E.
Qed.

Lemma blink_failed_write pin times interval s :
  pin ∈ configured_pins s ->
  lock_held s = false ->
  0 < times ->
  (drv_output drv pin HIGH (gpio s)).1 = false ->
  returned (blink pin times interval s) = Some false.
Proof.
  intros Hin Hl Ht E. unfold blink, try_except.
  destruct (Z.to_nat times) as [| n] eqn:En; [lia |].
  simpl. unfold bind. rewrite turn_on_configured by done. simpl. by rewrite E.
Qed.

(** A read that fails is no failure for [toggle]: it goes on with
    [turn_on]. *)
Lemma toggle_failed_read pin s :
  pin ∈ configured_pins s ->
  lock_held s = false ->
  (drv_input drv pin (gpio s)).1 = None ->
  toggle pin s =
    turn_on pin
      (add_log (LogReadError pin)
         (record_call (drv_input drv pin (gpio s)).2 (EvInput pin None) s)).
Proof.
  intros Hin Hl E. unfold toggle, try_except. unfold bind at 1.
  rewrite get_pin_state_configured by done. simpl. rewrite E. simpl.
  destruct (turn_on pin _) as [b s1 | s1 |] eqn:Eon; [done | | done].
  by apply no_raise_turn_on in Eon.
Qed.

Lemma toggle_failed_write pin s :
  pin ∈ configured_pins s ->
  lock_held s = false ->
  (∀ level, (drv_output drv pin level (drv_input drv pin (gpio s)).2).1 = false) ->
  returned (toggle pin s) = Some false.
Proof.
  intros Hin Hl E. unfold toggle, try_except. unfold bind at 1.
  rewrite get_pin_state_configured by done. simpl.
  destruct (drv_input drv pin (gpio s)) as [[v |] d] eqn:Ein; simpl in *.
  - destruct (bool_decide (Some v = Some HIGH)).
    + rewrite turn_off_configured by done. simpl. by rewrite E.
    + rewrite turn_on_configured by done. simpl. by rewrite E.
  - rewrite turn_on_configured by done. simpl. by rewrite E.
Qed.

Lemma turn_off_loop_failed_write pin (l : list Z) (acc : bool) s :
  (∀ p, p ∈ l -> p ∈ configured_pins s) ->
  lock_held s = false ->
  (∀ d, (drv_output drv pin LOW d).1 = false) ->
  acc = false ∨ pin ∈ l ->
  ∃ s',
    for_each l
      (fun success pin =>
         ok <- turn_off pin ;; ret (if negb ok then false else success))
      acc s
    = Ret false s'.
Proof.
  intros Hin Hl E. revert acc s Hin Hl.
  induction l as [| p l IH]; intros acc s Hin Hl Hacc.
  - destruct Hacc as [-> | Hp]; [by exists s | by apply elem_of_nil in Hp].
  - assert (Hp : p ∈ configured_pins s) by (apply Hin, elem_of_cons; by left).
    destruct (turn_off_step p s Hp Hl) as
      (ok & s1 & Hrun1 & Hc1 & Hl1 & Hg1 & _).
    assert (Hok : p = pin -> ok = false).
    { intros ->. rewrite turn_off_configured in Hrun1 by done.
      simpl in Hrun1. rewrite E in Hrun1. by injection Hrun1 as <-. }
    destruct (IH (if negb ok then false else acc) s1) as [s' Hrun].
    { intros q Hq. rewrite Hc1. apply Hin, elem_of_cons. by right. }
    { done. }
    { destruct Hacc as [-> | [-> | Hq]%elem_of_cons].
      - left. by destruct ok.
      - left. by rewrite Hok.
      - by right. }
    exists s'. simpl. unfold bind at 1. unfold bind at 1. rewrite Hrun1.
    unfold ret at 1. exact Hrun.
Qed.

Lemma turn_all_off_failed_write pin s :
  pin ∈ configured_pins s ->
  lock_held s = false ->
  (∀ d, (drv_output drv pin LOW d).1 = false) ->
  returned (turn_all_off s) = Some false.
Proof.
  intros Hin Hl E.
  destruct (turn_off_loop_failed_write pin (elements (configured_pins s)) true s)
    as [s' Hrun]; [| done | done | |].
  { intros p. by rewrite elem_of_elements. }
  { right. by apply elem_of_elements. }
  unfold turn_all_off, try_except. unfold bind at 1. unfold gets at 1.
  unfold bind at 1. by rewrite Hrun.
Qed.

Lemma setup_pins_failed_setup pin i s :
  pin ∈ valid_pins ->
  lock_held s = false ->
  (drv_setup drv pin i (gpio s)).1 = false ->
  returned (setup_pins [pin] i s) = Some [(pin, false)].
Proof.
  intros Hv Hl E. unfold setup_pins. simpl. unfold bind at 1. unfold bind at 1.
  unfold bind at 1. rewrite setup_pin_valid by done. simpl. by rewrite E.
Qed.

(** C8, as the code has it.  No public operation lets an exception out, in
    any state and whatever the library does, and called with the lock free
    every operation other than [cleanup] returns a value.  A failing call to
    the library becomes: [False] from [setup_pin], and from [setup_pins] for
    that pin, when the setup fails; [False] from [turn_on], [turn_off],
    [toggle] and [turn_all_off] when the write they make fails, and from
    [pulse] and [blink] when their first write fails; [None] from
    [get_pin_state] when the read fails.  A failed read alone is no failure
    of [toggle]: it goes on with [turn_on].  The constructor is the
    exception: it returns when [setmode] succeeds, and logs and re-raises
    when it fails. *)
Theorem operations_convert_failures (o : Op) s :
  (∀ s', call o s ≠ Raise s') ∧
  (lock_held s = false -> o ≠ OpCleanup ->
   ∃ v s', call o s = Ret v s' ∧ lock_held s' = false) ∧
  (lock_held s = false ->
   ∀ pin,
     (pin ∈ valid_pins -> ∀ i, (drv_setup drv pin i (gpio s)).1 = false ->
        returned (setup_pin pin i s) = Some false ∧
        returned (setup_pins [pin] i s) = Some [(pin, false)]) ∧
     (pin ∈ configured_pins s ->
        ((drv_output drv pin HIGH (gpio s)).1 = false ->
           returned (turn_on pin s) = Some false ∧
           (∀ duration, returned (pulse pin duration s) = Some false) ∧
           (∀ times interval, 0 < times ->
              returned (blink pin times interval s) = Some false)) ∧
        ((drv_output drv pin LOW (gpio s)).1 = false ->
           returned (turn_off pin s) = Some false) ∧
        ((∀ d, (drv_output drv pin LOW d).1 = false) ->
           returned (turn_all_off s) = Some false) ∧
        ((∀ level,
            (drv_output drv pin level (drv_input drv pin (gpio s)).2).1 = false) ->
           returned (toggle pin s) = Some false) ∧
        ((drv_input drv pin (gpio s)).1 = None ->
           returned (get_pin_state pin s) = Some None ∧
           toggle pin s =
             turn_on pin
               (add_log (LogReadError pin)
                  (record_call (drv_input drv pin (gpio s)).2
                     (EvInput pin None) s))))) ∧
  (∀ d, match __init__ (drv:=drv) d with
        | Ret _ _ => (drv_setmode drv d).1 = true
        | Raise _ => (drv_setmode drv d).1 = false
        | Hang => False
        end).
Proof.
  split; [apply no_raise_call |]. split.
  { intros Hl Ho.
    apply lock_safe_returns; auto using lock_safe_call, no_raise_call. }
  split.
  { intros Hl pin. split.
    - intros Hv i E. split; [| by apply setup_pins_failed_setup].
      rewrite setup_pin_valid by done. simpl. by rewrite E.
    - intros Hin. split; [| split; [| split; [| split]]].
      + intros E. split; [| split].
        * rewrite turn_on_configured by done. simpl. by rewrite E.
        * intros duration. by apply pulse_failed_write.
        * intros times interval Ht. by apply blink_failed_write.
      + intros E. rewrite turn_off_configured by done. simpl. by rewrite E.
      + intros E. by apply (turn_all_off_failed_write pin).
      + intros E. by apply toggle_failed_write.
      + intros E. split; [| by apply toggle_failed_read].
        rewrite get_pin_state_configured by done. simpl. by rewrite E. }
  intros d. rewrite init_result. simpl. by destruct (drv_setmode drv d).1.
Qed.

(** C10: in every state the controller can be in between two calls, the
    configured pins are exactly the keys of [pin_states]. *)
Theorem registry_consistent_reachable s :
  reachable s -> dom (pin_states s) = configured_pins s.
Proof.
  induction 1 as [d s Hinit | o s v s' Hr IH Hcall].
  - assert (Hn : registry_consistent (new_state d)).
    { unfold registry_consistent. simpl. apply dom_empty_L. }
    pose proof (keeps__initialize_gpio _ Hn) as Hk.
    unfold __init__ in Hinit. by rewrite Hinit in Hk.
  - pose proof (keeps_call o s IH) as Hk. by rewrite Hcall in Hk.
Qed.

End Claims.

Lemma fresh_init : __init__ (drv:=MockGPIO) Mock.empty = Ret tt fresh.
Proof. reflexivity. Qed.

Lemma with_pin_17_run :
  and_then (__init__ (drv:=MockGPIO) Mock.empty) (setup_pin 17 LOW) = Ret true with_pin_17.
Proof. vm_compute. reflexivity. Qed.

(** After [setup_pin(17)] on a fresh controller, [cleanup()] blocks. *)
Lemma cleanup_blocks_with_configured_pin_witness :
  is_initialized with_pin_17 = true ∧
  configured_pins with_pin_17 ≠ ∅ ∧
  cleanup with_pin_17 = Hang.
Proof.
  assert (Hne : configured_pins with_pin_17 ≠ ∅).
  { apply (bool_decide_unpack _). vm_compute. exact I. }
  split; [reflexivity |]. split; [exact Hne |].
  exact (cleanup_blocks_with_configured_pin with_pin_17 eq_refl Hne).
Defined.

(** ** On the simulation driver *)

Lemma Mock_output_configured pin level (st : Mock.MockState) :
  is_Some (Mock._pin_modes st !! pin) ->
  Mock.output pin level st =
    (true, {| Mock._pin_modes := Mock._pin_modes st;
              Mock._pin_states := <[pin := level]> (Mock._pin_states st) |}).
Proof. intros H. unfold Mock.output. by rewrite bool_decide_eq_true_2. Qed.

(** C7: on the simulation driver, for a pin in 2..27 and with the lock free,
    [setup_pin(pin, LOW)] then [turn_on(pin)] succeed and [get_pin_state(pin)]
    then returns [HIGH]; and after [setup_pins([17, 27])] and [turn_on(17)] on
    a fresh controller, [get_all_pins_status()] returns exactly the entries
    17: HIGH, configured and 27: LOW, configured. *)
Theorem configure_write_read pin (s : State MockGPIO) :
  2 <= pin <= 27 ->
  lock_held s = false ->
  (∃ s1 s2 s3,
     setup_pin pin LOW s = Ret true s1 ∧
     turn_on pin s1 = Ret true s2 ∧
     get_pin_state pin s2 = Ret (Some HIGH) s3) ∧
  returned scenario_setup = Some [(17, true); (27, true)] ∧
  returned scenario_turn_on = Some true ∧
  returned scenario_status =
    Some (<[17 := {| state := Some HIGH; state_name := "HIGH"; configured := true |}]>
            (<[27 := {| state := Some LOW; state_name := "LOW"; configured := true |}]>
               ∅)).
Proof.
  intros Hr Hl. split; [| by vm_compute].
  apply valid_pins_range in Hr.
  rewrite setup_pin_valid by done. simpl.
  eexists _, _, _. split; [reflexivity |].
  rewrite turn_on_configured;
    [| simpl; apply elem_of_union_l, elem_of_singleton; done | done].
  simpl. rewrite Mock_output_configured
    by (simpl; rewrite lookup_insert_eq; eauto).
  simpl. split; [reflexivity |].
  rewrite get_pin_state_configured;
    [| simpl; apply elem_of_union_l, elem_of_singleton; done | done].
  simpl. by rewrite lookup_insert_eq.
Qed.

Lemma configure_write_read_witness :
  2 <= 17 <= 27 ∧
  lock_held fresh = false ∧
  (∃ s1 s2 s3,
     setup_pin 17 LOW fresh = Ret true s1 ∧
     turn_on 17 s1 = Ret true s2 ∧
     get_pin_state 17 s2 = Ret (Some HIGH) s3).
Proof.
  split; [lia |]. split; [reflexivity |].
  apply (configure_write_read 17 fresh); [lia | reflexivity].
Defined.

(** ** The claims on concrete runs *)

Lemma get_pin_status_unconfigured_witness :
  (5 ∉ configured_pins fresh) ∧
  get_pin_state 5 fresh = Ret None (add_log (LogNotConfigured 5) fresh) ∧
  get_pin_status 5 fresh =
    Ret ([("status", JStr "success"); ("pin", JInt 5);
          ("state", JStr "LOW"); ("value", JNull)], 200)
        (add_log (LogNotConfigured 5) fresh).
Proof.
  split; [apply not_elem_of_empty |].
  apply (get_pin_status_unconfigured 5 fresh), not_elem_of_empty.
Defined.

(** The handler for [turn_on] does report the failure of the controller: on
    pin 99 it answers with status "error" and code 500. *)
Example turn_pin_on_invalid_pin :
  returned (turn_pin_on 99 fresh) =
    Some ([("status", JStr "error"); ("message", JStr "Failed to turn ON");
           ("pin", JInt 99)], 500).
Proof. by vm_compute. Qed.

Lemma setup_pin_rejects_invalid_pin_witness :
  ¬ (2 <= 28 <= 27) ∧
  setup_pin 28 LOW fresh = Ret false (add_log (LogInvalidPin 28) fresh).
Proof.
  split; [lia |].
  apply (setup_pin_rejects_invalid_pin (drv:=MockGPIO) 28 LOW fresh). lia.
Defined.

Example turn_all_off_faulty_board :
  returned (turn_all_off faulty_board) = Some false ∧
  (pin_states <$> final (turn_all_off faulty_board)) =
    Some (<[17 := HIGH]> (<[27 := LOW]> ∅)) ∧
  (gpio_calls <$> final (turn_all_off faulty_board)) =
    Some (gpio_calls faulty_board ++
          [EvOutput 27 LOW true; EvOutput 17 LOW false]).
Proof. by vm_compute. Qed.

Lemma turn_all_off_best_effort_witness :
  lock_held faulty_board = false ∧
  ∃ b s' evs,
    turn_all_off faulty_board = Ret b s' ∧
    gpio_calls s' = gpio_calls faulty_board ++ evs ∧
    Forall2 (fun p e => ∃ ok, e = EvOutput p LOW ok)
      (elements (configured_pins faulty_board)) evs ∧
    (b = true ↔ ∀ e, e ∈ evs -> ev_ok e = true) ∧
    (∀ p, p ∈ configured_pins faulty_board ->
       (EvOutput p LOW true ∈ evs ∧ pin_states s' !! p = Some LOW) ∨
       EvOutput p LOW false ∈ evs) ∧
    (∀ q, (∀ p, EvOutput p LOW false ∈ evs -> p = q) ->
          ∀ p, p ∈ configured_pins faulty_board -> p ≠ q ->
               EvOutput p LOW true ∈ evs ∧ pin_states s' !! p = Some LOW) ∧
    configured_pins s' = configured_pins faulty_board.
Proof.
  split; [reflexivity |].
  apply (turn_all_off_best_effort faulty_board). reflexivity.
Defined.

Example setup_pins_with_invalid_pin :
  returned (setup_pins [17; 99; 27] LOW fresh) =
    Some [(17, true); (99, false); (27, true)] ∧
  returned (setup_pins [17; 99; 17] LOW fresh) = Some [(17, true); (99, false)].
Proof. by vm_compute. Qed.

Lemma setup_pins_attempts_every_pin_witness :
  lock_held fresh = false ∧
  ∃ res s' outs,
    setup_pins [17; 99; 27] LOW fresh = Ret res s' ∧
    (∃ s1, setup_chain LOW [17; 99; 27] fresh outs s1 ∧ only_logged s1 s') ∧
    length outs = length [17; 99; 27] ∧
    setup_attempts (log s') = setup_attempts (log fresh) ++ zip [17; 99; 27] outs ∧
    NoDup res.*1 ∧
    (∀ p, p ∈ res.*1 ↔ p ∈ [17; 99; 27]) ∧
    (∀ p, dict_get p res = dict_get p (reverse (zip [17; 99; 27] outs))) ∧
    (NoDup [17; 99; 27] -> res = zip [17; 99; 27] outs).
Proof.
  split; [reflexivity |].
  apply (setup_pins_attempts_every_pin [17; 99; 27] LOW fresh). reflexivity.
Defined.

Lemma set_level_auto_configures_witness :
  (17 ∉ configured_pins fresh) ∧
  lock_held fresh = false ∧
  ∃ s1, setup_pin 17 LOW (add_log (LogAutoConfigure 17) fresh) = Ret true s1 ∧
        turn_on 17 fresh = turn_on 17 s1 ∧
        returned (turn_on 17 fresh) = Some true.
Proof.
  split; [apply not_elem_of_empty |]. split; [reflexivity |].
  destruct (set_level_auto_configures 17 fresh (not_elem_of_empty 17) eq_refl)
    as (ok & s1 & Hrun & Hok & Hrest).
  destruct ok.
  - exists s1. split; [exact Hrun |].
    destruct Hrest as (_ & _ & Hon & _). split; [exact Hon |].
    vm_compute. reflexivity.
  - exfalso. destruct Hok as [_ Hok].
    assert (Hf : false = true) by (apply Hok; split; [lia | reflexivity]).
    discriminate Hf.
Defined.

(** C8, where the claim fails: when [setmode] raises, so does the
    constructor. *)
Lemma constructor_raises :
  __init__ (drv:=NoAccessGPIO) Mock.empty =
    Raise (add_log LogInitError
             (record_call (drv:=NoAccessGPIO) Mock.empty (EvSetmode false)
                (new_state (drv:=NoAccessGPIO) Mock.empty))).
Proof. reflexivity. Qed.

Lemma faulty_board_configured : 17 ∈ configured_pins faulty_board.
Proof. apply (bool_decide_unpack _). vm_compute. exact I. Defined.

(** On the board whose line 17 is faulty every operation returns, and the
    writes to pin 17 that fail give [False]. *)
Lemma operations_convert_failures_witness :
  lock_held faulty_board = false ∧
  OpToggle 17 ≠ OpCleanup ∧
  17 ∈ configured_pins faulty_board ∧
  (drv_output (FaultyGPIO 17) 17 HIGH (gpio faulty_board)).1 = false ∧
  (∃ v s', call (OpToggle 17) faulty_board = Ret v s' ∧ lock_held s' = false) ∧
  returned (turn_on 17 faulty_board) = Some false ∧
  returned (pulse 17 (1 # 2) faulty_board) = Some false ∧
  returned (toggle 17 faulty_board) = Some false ∧
  returned (turn_all_off faulty_board) = Some false.
Proof.
  assert (Hne : OpToggle 17 ≠ OpCleanup) by discriminate.
  pose proof (operations_convert_failures (OpToggle 17) faulty_board)
    as (_ & Hret & Hconv & _).
  destruct (proj2 (Hconv eq_refl 17) faulty_board_configured)
    as (Hon & _ & Hall & Htoggle & _).
  destruct (Hon eq_refl) as (Hturn & Hpulse & _).
  split; [reflexivity |]. split; [exact Hne |].
  split; [exact faulty_board_configured |]. split; [reflexivity |].
  split; [exact (Hret eq_refl Hne) |].
  split; [exact Hturn |]. split; [exact (Hpulse (1 # 2)) |].
  split; [apply Htoggle; intros level; reflexivity |].
  apply Hall. intros d. reflexivity.
Defined.

Lemma with_pin_17_reachable : reachable with_pin_17.
Proof.
  apply (reachable_call (OpSetupPin 17 LOW) fresh (VBool true)).
  - apply (reachable_init (drv:=MockGPIO) Mock.empty). reflexivity.
  - vm_compute. reflexivity.
Defined.

Lemma registry_consistent_reachable_witness :
  reachable with_pin_17 ∧
  dom (pin_states with_pin_17) = configured_pins with_pin_17.
Proof.
  split; [exact with_pin_17_reachable |].
  exact (registry_consistent_reachable with_pin_17 with_pin_17_reachable).
Defined.

(** * More of the controller *)

(** ** Invariants are closed under the constructs of the monad *)

Section Preserves.

Context {drv : Driver}.
Context (I : State drv -> Prop).
Hypothesis lock_blind : ∀ b s, I s -> I (set_lock_held b s).
Hypothesis log_blind : ∀ e s, I s -> I (add_log e s).
Implicit Types (s : State drv) (pin : Z).

Lemma preserves_ret {A} (a : A) : preserves I (ret a).
Proof. by intros s H. Qed.

Lemma preserves_gets {A} (f : State drv -> A) : preserves I (gets f).
Proof. by intros s H. Qed.

Lemma preserves_raise {A} : preserves (A:=A) I raise.
Proof. by intros s H. Qed.

Lemma preserves_logger e : preserves I (logger e).
Proof. intros s H. by apply log_blind. Qed.

Lemma preserves_time_sleep d : preserves I (time_sleep d).
Proof. intros s H. unfold time_sleep. by case_split. Qed.

Lemma preserves_bind {A B} (m : M drv A) (f : A -> M drv B) :
  preserves I m -> (∀ a, preserves I (f a)) -> preserves I (x <- m ;; f x).
Proof.
  intros Hm Hf s H. unfold bind. specialize (Hm s H).
  destruct (m s) as [a s1 | s1 |]; [by apply Hf | done | done].
Qed.

Lemma preserves_try {A} (body handler : M drv A) :
  preserves I body -> preserves I handler -> preserves I (try_except body handler).
Proof.
  intros Hb Hh s H. unfold try_except. specialize (Hb s H).
  destruct (body s) as [a s1 | s1 |]; [done | by apply Hh | done].
Qed.

Lemma preserves_with_lock {A} (body : M drv A) :
  preserves I body -> preserves I (with_lock body).
Proof.
  intros Hb s H. unfold with_lock. destruct (lock_held s); [done |].
  specialize (Hb (set_lock_held true s) (lock_blind _ _ H)).
  destruct (body _) as [a s1 | s1 |]; simpl in *; auto.
Qed.

Lemma preserves_if {A} (b : bool) (m1 m2 : M drv A) :
  preserves I m1 -> preserves I m2 -> preserves I (if b then m1 else m2).
Proof. by destruct b. Qed.

Lemma preserves_for_each {A B} (l : list B) (body : A -> B -> M drv A) acc :
  (∀ a x, preserves I (body a x)) -> preserves I (for_each l body acc).
Proof.
  intros Hb. revert acc.
  induction l as [| x l IH]; intros acc; simpl.
  - apply preserves_ret.
  - apply preserves_bind; auto.
Qed.

(** [turn_on] and [turn_off] keep an invariant that [setup_pin] keeps and that
    their write to a configured pin keeps. *)
Lemma preserves_turn_on pin :
  preserves I (setup_pin pin LOW) ->
  (∀ s, pin ∈ configured_pins s -> I s -> ends_in I (turn_on pin s)) ->
  preserves I (turn_on pin).
Proof.
  intros Hsetup Hcfg s H.
  destruct (decide (pin ∈ configured_pins s)) as [Hin | Hin]; [by apply Hcfg |].
  rewrite turn_on_unconfigured by done.
  pose proof (Hsetup _ (log_blind (LogAutoConfigure pin) s H)) as Hs.
  destruct (setup_pin pin LOW _) as [[] s1 | s1 |] eqn:E; simpl in *;
    try done; [| by apply log_blind].
  apply setup_pin_true_configured in E.
  rewrite turn_on_write_phase by done. by apply Hcfg.
Qed.

Lemma preserves_turn_off pin :
  preserves I (setup_pin pin LOW) ->
  (∀ s, pin ∈ configured_pins s -> I s -> ends_in I (turn_off pin s)) ->
  preserves I (turn_off pin).
Proof.
  intros Hsetup Hcfg s H.
  destruct (decide (pin ∈ configured_pins s)) as [Hin | Hin]; [by apply Hcfg |].
  rewrite turn_off_unconfigured by done.
  pose proof (Hsetup _ (log_blind (LogAutoConfigure pin) s H)) as Hs.
  destruct (setup_pin pin LOW _) as [[] s1 | s1 |] eqn:E; simpl in *;
    try done; [| by apply log_blind].
  apply setup_pin_true_configured in E.
  rewrite turn_off_write_phase by done. by apply Hcfg.
Qed.

(** The operations built from the four basic ones keep what those keep. *)
Lemma preserves_call (o : Op) :
  (∀ pin i, preserves I (setup_pin pin i)) ->
  (∀ pin, preserves I (turn_on pin)) ->
  (∀ pin, preserves I (turn_off pin)) ->
  (∀ pin, preserves I (get_pin_state pin)) ->
  preserves I cleanup ->
  preserves I (call o).
Proof.
  intros Hsetup Hon Hoff Hget Hclean.
  assert (Hblink : ∀ n pin i, preserves I (blink_loop n pin i)).
  { intros n pin i. induction n as [| n IH]; simpl;
      eauto 12 using preserves_ret, preserves_bind, preserves_if,
        preserves_time_sleep. }
  destruct o; simpl;
    unfold setup_pins, toggle, get_all_pins_status, pulse, blink,
      turn_all_off, get_configured_pins, is_pin_configured, get_system_info;
    eauto 14 using preserves_ret, preserves_gets, preserves_logger,
      preserves_bind, preserves_try, preserves_if, preserves_for_each,
      preserves_time_sleep.
Qed.

Lemma preserves_for_each_in {A B} (l : list B) (body : A -> B -> M drv A) acc :
  (∀ a x, x ∈ l -> preserves I (body a x)) -> preserves I (for_each l body acc).
Proof.
  revert acc. induction l as [| x l IH]; intros acc Hb; simpl.
  - apply preserves_ret.
  - apply preserves_bind.
    + apply Hb, elem_of_cons. by left.
    + intros a. apply IH. intros a' y Hy. apply Hb, elem_of_cons. by right.
Qed.

(** An operation about the pins [l] keeps what the basic operations on the
    pins of [l] keep. *)
Lemma preserves_touched (o : Op) (l : list Z) :
  touched o = Some l ->
  (∀ pin i, pin ∈ l -> preserves I (setup_pin pin i)) ->
  (∀ pin, pin ∈ l -> preserves I (turn_on pin)) ->
  (∀ pin, pin ∈ l -> preserves I (turn_off pin)) ->
  (∀ pin, pin ∈ l -> preserves I (get_pin_state pin)) ->
  preserves I (call o).
Proof.
  intros Ht Hsetup Hon Hoff Hget.
  assert (Hblink : ∀ n pin i, pin ∈ l -> preserves I (blink_loop n pin i)).
  { intros n pin i Hin. induction n as [| n IH]; simpl;
      eauto 12 using preserves_ret, preserves_bind, preserves_if,
        preserves_time_sleep. }
  destruct o; simpl in Ht; try discriminate; injection Ht as <-; simpl;
    try (assert (Hin : pin ∈ [pin]) by (apply elem_of_cons; by left));
    unfold setup_pins, toggle, pulse, blink,
      get_configured_pins, is_pin_configured, get_system_info;
    eauto 14 using preserves_ret, preserves_gets, preserves_logger,
      preserves_bind, preserves_try, preserves_if, preserves_for_each_in,
      preserves_time_sleep.
Qed.

Lemma preserves_turn_all_off :
  (∀ pin, preserves I (turn_off pin)) -> preserves I turn_all_off.
Proof.
  intros Hoff. unfold turn_all_off.
  eauto 14 using preserves_ret, preserves_gets, preserves_logger,
    preserves_bind, preserves_try, preserves_if, preserves_for_each.
Qed.

(** [cleanup] keeps what [turn_off] keeps and the release of the library
    followed by the clearing of the registry establishes. *)
Lemma preserves_cleanup :
  (∀ pin, preserves I (turn_off pin)) ->
  preserves I
    (GPIO_cleanup ;;;
     modify (set_configured_pins (fun _ => ∅)) ;;;
     modify (set_pin_states (fun _ => ∅)) ;;;
     modify (set_is_initialized false) ;;;
     logger LogCleanupDone) ->
  preserves I cleanup.
Proof.
  intros Hoff Hrel.
  unfold cleanup. apply preserves_try; [| by apply preserves_logger].
  apply preserves_with_lock.
  apply preserves_bind; [apply preserves_gets |]. intros [].
  - apply preserves_bind; [by apply preserves_turn_all_off |].
    intros _. apply Hrel.
  - apply preserves_ret.
Qed.

End Preserves.

(** ** Only valid pins reach the registry and the library *)

Lemma size_valid_pins : size valid_pins = 26%nat.
Proof. by vm_compute. Qed.

Lemma Forall_snoc_valid (l : list drv_event) (e : drv_event) :
  Forall ev_valid l -> ev_valid e -> Forall ev_valid (l ++ [e]).
Proof. intros Hl He. apply Forall_app. split; [done | by repeat constructor]. Qed.

Lemma ev_valid_no_pin (e : drv_event) : ev_pin e = None -> ev_valid e.
Proof. intros H p. by rewrite H. Qed.

Lemma ev_valid_pin (e : drv_event) pin :
  ev_pin e = Some pin -> pin ∈ valid_pins -> ev_valid e.
Proof. intros H Hv p. rewrite H. by intros [= <-]. Qed.

(** Finish a goal [pins_valid] of an explicit state. *)
Ltac pins_valid_solve :=
  repeat match goal with
         | H : bool_decide _ = true |- _ => apply bool_decide_eq_true in H
         | H : bool_decide _ = false |- _ => apply bool_decide_eq_false in H
         | H : pins_valid _ |- _ => destruct H as [? ?]
         end;
  first
    [ done
    | split; simpl;
      [ first [ done
              | apply union_subseteq; split;
                [by apply singleton_subseteq_l | done]
              | apply empty_subseteq ]
      | first [ done
              | apply Forall_snoc_valid;
                [done
                | first [ by apply ev_valid_no_pin
                        | eapply ev_valid_pin; [reflexivity | by auto] ] ] ] ] ].

Section ValidPins.

Context {drv : Driver}.
Implicit Types (s : State drv) (pin : Z).

Lemma pins_valid_lock_blind b s : pins_valid s -> pins_valid (set_lock_held b s).
Proof. done. Qed.

Lemma pins_valid_log_blind e s : pins_valid s -> pins_valid (add_log e s).
Proof. done. Qed.

Lemma pins_valid_setup_pin pin i : preserves (drv:=drv) pins_valid (setup_pin pin i).
Proof.
  intros s Hv. unfold_ops. unfold_monad. case_split; pins_valid_solve.
Qed.

Lemma pins_valid_turn_on pin : preserves (drv:=drv) pins_valid (turn_on pin).
Proof.
  apply preserves_turn_on;
    [apply pins_valid_log_blind | apply pins_valid_setup_pin |].
  intros s Hin Hv. unfold turn_on. unfold_monad.
  rewrite bool_decide_eq_true_2 by done. case_split; pins_valid_solve.
Qed.

Lemma pins_valid_turn_off pin : preserves (drv:=drv) pins_valid (turn_off pin).
Proof.
  apply preserves_turn_off;
    [apply pins_valid_log_blind | apply pins_valid_setup_pin |].
  intros s Hin Hv. unfold turn_off. unfold_monad.
  rewrite bool_decide_eq_true_2 by done. case_split; pins_valid_solve.
Qed.

Lemma pins_valid_get_pin_state pin : preserves (drv:=drv) pins_valid (get_pin_state pin).
Proof.
  intros s Hv. unfold_ops. unfold_monad. case_split; pins_valid_solve.
Qed.

Lemma pins_valid_release :
  preserves (drv:=drv) pins_valid
    (GPIO_cleanup ;;;
     modify (set_configured_pins (fun _ => ∅)) ;;;
     modify (set_pin_states (fun _ => ∅)) ;;;
     modify (set_is_initialized false) ;;;
     logger LogCleanupDone).
Proof. intros s Hv. unfold_monad. case_split; pins_valid_solve. Qed.

Lemma pins_valid_cleanup : preserves (drv:=drv) pins_valid cleanup.
Proof.
  apply preserves_cleanup;
    auto using pins_valid_lock_blind, pins_valid_log_blind,
      pins_valid_turn_off, pins_valid_release.
Qed.

Lemma pins_valid_call (o : Op) : preserves (drv:=drv) pins_valid (call o).
Proof.
  apply preserves_call;
    auto using pins_valid_log_blind, pins_valid_setup_pin, pins_valid_turn_on,
      pins_valid_turn_off, pins_valid_get_pin_state, pins_valid_cleanup.
Qed.

Lemma pins_valid_init (d : drv_state drv) s :
  __init__ d = Ret tt s -> pins_valid s.
Proof.
  rewrite init_result. simpl.
  destruct (drv_setmode drv d) as [[] d']; simpl; [| done].
  intros [= <-]. split; simpl; [apply empty_subseteq |].
  repeat constructor. by apply ev_valid_no_pin.
Qed.

Lemma reachable_pins_valid s : reachable s -> pins_valid s.
Proof.
  induction 1 as [d s Hinit | o s v s' Hr IH Hcall].
  - by eapply pins_valid_init.
  - pose proof (pins_valid_call o s IH) as Hk. by rewrite Hcall in Hk.
Qed.

(** X1: between two calls, every configured pin is in 2..27, so at most 26
    pins are configured, and every call made to the library so far that
    names a pin names one in 2..27. *)
Theorem only_valid_pins_reach_the_library s :
  reachable s ->
  (∀ p, p ∈ configured_pins s -> 2 <= p <= 27) ∧
  (size (configured_pins s) <= 26)%nat ∧
  (∀ e p, e ∈ gpio_calls s -> ev_pin e = Some p -> 2 <= p <= 27).
Proof.
  intros Hr. destruct (reachable_pins_valid s Hr) as [Hc He].
  split; [| split].
  - intros p Hp. by apply valid_pins_range, Hc.
  - rewrite <- size_valid_pins. by apply subseteq_size.
  - intros e p Hin Hp. apply valid_pins_range.
    by apply (proj1 (Forall_forall _ _) He e Hin p).
Qed.

End ValidPins.

(** ** An operation leaves the other pins alone *)

Ltac pin_view_solve :=
  repeat match goal with
         | H : bool_decide _ = true |- _ => apply bool_decide_eq_true in H
         | H : bool_decide _ = false |- _ => apply bool_decide_eq_false in H
         | H : pin_view _ _ _ _ |- _ => destruct H as [? ?]
         end;
  first
    [ done
    | split; simpl;
      [ first [ done | by rewrite lookup_insert_ne ]
      | first [ done
              | rewrite elem_of_union, elem_of_singleton; intuition congruence ] ] ].

Section Frame.

Context {drv : Driver}.
Implicit Types (s : State drv) (pin q : Z).

Lemma pin_view_lock_blind q v P b s :
  pin_view q v P s -> pin_view q v P (set_lock_held b s).
Proof. done. Qed.

Lemma pin_view_log_blind q v P e s :
  pin_view q v P s -> pin_view q v P (add_log e s).
Proof. done. Qed.

Lemma pin_view_setup_pin q v P pin i :
  pin ≠ q -> preserves (drv:=drv) (pin_view q v P) (setup_pin pin i).
Proof.
  intros Hne s Hv. unfold_ops. unfold_monad. case_split; pin_view_solve.
Qed.

Lemma pin_view_turn_on q v P pin :
  pin ≠ q -> preserves (drv:=drv) (pin_view q v P) (turn_on pin).
Proof.
  intros Hne. apply preserves_turn_on;
    [apply pin_view_log_blind | by apply pin_view_setup_pin |].
  intros s Hin Hv. unfold turn_on. unfold_monad.
  rewrite bool_decide_eq_true_2 by done. case_split; pin_view_solve.
Qed.

Lemma pin_view_turn_off q v P pin :
  pin ≠ q -> preserves (drv:=drv) (pin_view q v P) (turn_off pin).
Proof.
  intros Hne. apply preserves_turn_off;
    [apply pin_view_log_blind | by apply pin_view_setup_pin |].
  intros s Hin Hv. unfold turn_off. unfold_monad.
  rewrite bool_decide_eq_true_2 by done. case_split; pin_view_solve.
Qed.

Lemma pin_view_get_pin_state q v P pin :
  pin ≠ q -> preserves (drv:=drv) (pin_view q v P) (get_pin_state pin).
Proof.
  intros Hne s Hv. unfold_ops. unfold_monad. case_split; pin_view_solve.
Qed.

(** X2: an operation about given pins that returns leaves every other pin as
    it was: the same cached level, configured or not as before. *)
Theorem operation_leaves_other_pins (o : Op) (l : list Z) q s v s' :
  touched o = Some l ->
  q ∉ l ->
  call o s = Ret v s' ->
  pin_states s' !! q = pin_states s !! q ∧
  (q ∈ configured_pins s' ↔ q ∈ configured_pins s).
Proof.
  intros Ht Hq Hcall.
  assert (Hne : ∀ pin, pin ∈ l -> pin ≠ q) by (intros pin Hin ->; done).
  pose proof (preserves_touched
                (pin_view q (pin_states s !! q) (q ∈ configured_pins s))
                (pin_view_log_blind _ _ _) o l Ht) as Hk.
  specialize (Hk (fun pin i Hin => pin_view_setup_pin _ _ _ pin i (Hne pin Hin))).
  specialize (Hk (fun pin Hin => pin_view_turn_on _ _ _ pin (Hne pin Hin))).
  specialize (Hk (fun pin Hin => pin_view_turn_off _ _ _ pin (Hne pin Hin))).
  specialize (Hk (fun pin Hin => pin_view_get_pin_state _ _ _ pin (Hne pin Hin))).
  specialize (Hk s (conj eq_refl (reflexivity _))).
  by rewrite Hcall in Hk.
Qed.

End Frame.

(** ** After a release *)

Lemma cleanup_calls_app (l1 l2 : list drv_event) :
  cleanup_calls (l1 ++ l2) = (cleanup_calls l1 + cleanup_calls l2)%nat.
Proof.
  induction l1 as [| e l1 IH]; [done |]. destruct e; simpl; by rewrite ?IH.
Qed.

Ltac released_solve :=
  repeat match goal with
         | H : released_with _ _ |- _ => destruct H as [? ?]
         end;
  first
    [ done
    | split; simpl;
      [ done | rewrite ?cleanup_calls_app; simpl; lia ] ].

Section Released.

Context {drv : Driver}.
Implicit Types (s : State drv) (pin : Z).

Lemma released_log_blind n e s : released_with n s -> released_with n (add_log e s).
Proof. done. Qed.

Lemma released_setup_pin n pin i :
  preserves (drv:=drv) (released_with n) (setup_pin pin i).
Proof.
  intros s Hv. unfold_ops. unfold_monad. case_split; released_solve.
Qed.

Lemma released_turn_on n pin : preserves (drv:=drv) (released_with n) (turn_on pin).
Proof.
  apply preserves_turn_on;
    [apply released_log_blind | apply released_setup_pin |].
  intros s Hin Hv. unfold turn_on. unfold_monad.
  rewrite bool_decide_eq_true_2 by done. case_split; released_solve.
Qed.

Lemma released_turn_off n pin : preserves (drv:=drv) (released_with n) (turn_off pin).
Proof.
  apply preserves_turn_off;
    [apply released_log_blind | apply released_setup_pin |].
  intros s Hin Hv. unfold turn_off. unfold_monad.
  rewrite bool_decide_eq_true_2 by done. case_split; released_solve.
Qed.

Lemma released_get_pin_state n pin :
  preserves (drv:=drv) (released_with n) (get_pin_state pin).
Proof.
  intros s Hv. unfold_ops. unfold_monad. case_split; released_solve.
Qed.

Lemma released_cleanup n : preserves (drv:=drv) (released_with n) cleanup.
Proof.
  intros s [Hi Hn]. unfold cleanup. unfold_monad.
  destruct (lock_held s); simpl; [done |]. rewrite Hi. simpl.
  by split.
Qed.

Lemma released_call n (o : Op) : preserves (drv:=drv) (released_with n) (call o).
Proof.
  apply preserves_call;
    auto using released_log_blind, released_setup_pin, released_turn_on,
      released_turn_off, released_get_pin_state, released_cleanup.
Qed.

(** X3: once the initialization flag is down, no public operation raises it
    again and none calls [GPIO.cleanup]: whatever is configured afterwards,
    [cleanup] returns at once and leaves the controller as it is. *)
Theorem released_stays_released s0 s :
  is_initialized s0 = false ->
  after s0 s ->
  is_initialized s = false ∧
  cleanup_calls (gpio_calls s) = cleanup_calls (gpio_calls s0) ∧
  (lock_held s = false -> cleanup s = Ret tt s).
Proof.
  intros Hi Ha.
  assert (Hr : released_with (cleanup_calls (gpio_calls s0)) s).
  { induction Ha as [| o s v s' Ha IH Hcall]; [done |].
    pose proof (released_call _ o s IH) as Hk. by rewrite Hcall in Hk. }
  destruct Hr as [Hi' Hn]. split; [done |]. split; [done |].
  intros Hl. by apply cleanup_released.
Qed.

End Released.

(** ** The simulation driver agrees with the cache *)

Ltac coherent_solve :=
  repeat match goal with
         | H : bool_decide _ = true |- _ => apply bool_decide_eq_true in H
         | H : bool_decide _ = false |- _ => apply bool_decide_eq_false in H
         end;
  first
    [ done
    | match goal with
      | Hc : mock_coherent _ |- _ =>
          let p := fresh "p" in
          let Hp := fresh "Hp" in
          intros p Hp; simpl in *;
          try (apply elem_of_union in Hp as [Hp | Hp];
               [apply elem_of_singleton in Hp as -> |]);
          try (by apply not_elem_of_empty in Hp);
          match goal with
          | |- context [<[?k := _]> _ !! ?k] =>
              rewrite !lookup_insert_eq; eauto
          | |- context [<[?k := _]> _ !! ?q] =>
              destruct (decide (k = q)) as [-> | ?];
              [ rewrite !lookup_insert_eq; eauto
              | rewrite !lookup_insert_ne by done; by apply Hc ]
          | |- _ => by apply Hc
          end
      end ].

Section Coherent.

Implicit Types (s : State MockGPIO) (pin : Z).

Lemma coherent_lock_blind b s : mock_coherent s -> mock_coherent (set_lock_held b s).
Proof. done. Qed.

Lemma coherent_log_blind e s : mock_coherent s -> mock_coherent (add_log e s).
Proof. done. Qed.

Lemma coherent_setup_pin pin i : preserves mock_coherent (setup_pin pin i).
Proof.
  intros s Hc. unfold_ops. unfold_monad. case_split; coherent_solve.
Qed.

Lemma coherent_turn_on pin : preserves mock_coherent (turn_on pin).
Proof.
  apply preserves_turn_on;
    [apply coherent_log_blind | apply coherent_setup_pin |].
  intros s Hin Hc. unfold turn_on. unfold_monad.
  rewrite bool_decide_eq_true_2 by done. simpl.
  destruct (lock_held s); [done |].
  rewrite Mock_output_configured by (by apply Hc). simpl.
  intros p Hp. simpl in *. destruct (Hc p Hp) as (Hm & v & Hd & Hv).
  split; [done |]. destruct (decide (pin = p)) as [-> | Hne].
  - rewrite !lookup_insert_eq. eauto.
  - rewrite !lookup_insert_ne by done. eauto.
Qed.

Lemma coherent_turn_off pin : preserves mock_coherent (turn_off pin).
Proof.
  apply preserves_turn_off;
    [apply coherent_log_blind | apply coherent_setup_pin |].
  intros s Hin Hc. unfold turn_off. unfold_monad.
  rewrite bool_decide_eq_true_2 by done. simpl.
  destruct (lock_held s); [done |].
  rewrite Mock_output_configured by (by apply Hc). simpl.
  intros p Hp. simpl in *. destruct (Hc p Hp) as (Hm & v & Hd & Hv).
  split; [done |]. destruct (decide (pin = p)) as [-> | Hne].
  - rewrite !lookup_insert_eq. eauto.
  - rewrite !lookup_insert_ne by done. eauto.
Qed.

Lemma coherent_get_pin_state pin : preserves mock_coherent (get_pin_state pin).
Proof.
  intros s Hc. unfold_ops. unfold_monad. case_split; [done | | done].
  intros p Hp. simpl in *. destruct (Hc p Hp) as (Hm & v & Hd & Hv).
  split; [done |]. destruct (decide (pin = p)) as [-> | Hne].
  - rewrite lookup_insert_eq, Hd. simpl. eauto.
  - rewrite lookup_insert_ne by done. eauto.
Qed.

Lemma coherent_release :
  preserves mock_coherent
    (GPIO_cleanup ;;;
     modify (set_configured_pins (fun _ => ∅)) ;;;
     modify (set_pin_states (fun _ => ∅)) ;;;
     modify (set_is_initialized false) ;;;
     logger LogCleanupDone).
Proof.
  intros s Hc. unfold_monad. simpl. intros p Hp.
  by apply not_elem_of_empty in Hp.
Qed.

Lemma coherent_call (o : Op) : preserves mock_coherent (call o).
Proof.
  apply preserves_call;
    auto using coherent_log_blind, coherent_setup_pin, coherent_turn_on,
      coherent_turn_off, coherent_get_pin_state.
  apply preserves_cleanup;
    auto using coherent_lock_blind, coherent_log_blind, coherent_turn_off,
      coherent_release.
Qed.

Lemma reachable_coherent s : reachable s -> mock_coherent s.
Proof.
  induction 1 as [d s Hinit | o s v s' Hr IH Hcall].
  - rewrite init_result in Hinit. simpl in Hinit. injection Hinit as <-.
    intros p Hp. by apply not_elem_of_empty in Hp.
  - pose proof (coherent_call o s IH) as Hk. by rewrite Hcall in Hk.
Qed.

(** X4: on the simulation driver, between two calls, every configured pin
    has a mode in the driver and the level the driver holds for it is the
    cached one; so [get_pin_state] returns the cached level. *)
Theorem simulation_agrees_with_cache s pin :
  reachable s ->
  pin ∈ configured_pins s ->
  is_Some (Mock._pin_modes (gpio s) !! pin) ∧
  ∃ v, Mock._pin_states (gpio s) !! pin = Some v ∧
       pin_states s !! pin = Some v ∧
       returned (get_pin_state pin s) = Some (Some v).
Proof.
  intros Hr Hin.
  destruct (reachable_coherent s Hr pin Hin) as (Hm & v & Hd & Hv).
  split; [done |]. exists v. split; [done |]. split; [done |].
  rewrite get_pin_state_configured by eauto using reachable_lock_free.
  simpl. by rewrite Hd.
Qed.

(** In a coherent state a write to a configured pin succeeds. *)
Lemma coherent_write pin level s :
  mock_coherent s ->
  pin ∈ configured_pins s ->
  drv_output MockGPIO pin level (gpio s) =
    (true, {| Mock._pin_modes := Mock._pin_modes (gpio s);
              Mock._pin_states := <[pin := level]> (Mock._pin_states (gpio s)) |}).
Proof.
  intros Hc Hin. simpl. apply Mock_output_configured. by apply Hc.
Qed.

Lemma coherent_turn_off_step pin s :
  mock_coherent s ->
  pin ∈ configured_pins s ->
  lock_held s = false ->
  ∃ s1,
    turn_off pin s = Ret true s1 ∧
    mock_coherent s1 ∧
    configured_pins s1 = configured_pins s ∧
    lock_held s1 = false ∧
    gpio_calls s1 = gpio_calls s ++ [EvOutput pin LOW true] ∧
    pin_states s1 = <[pin := LOW]> (pin_states s).
Proof.
  intros Hc Hin Hl.
  pose proof (coherent_turn_off pin s Hc) as Hk.
  rewrite turn_off_configured in * by done.
  rewrite coherent_write in * by done. simpl in *.
  eexists. split; [reflexivity |]. split; [exact Hk |]. by repeat split.
Qed.

Lemma coherent_turn_on_step pin s :
  mock_coherent s ->
  pin ∈ configured_pins s ->
  lock_held s = false ->
  ∃ s1,
    turn_on pin s = Ret true s1 ∧
    mock_coherent s1 ∧
    configured_pins s1 = configured_pins s ∧
    lock_held s1 = false ∧
    gpio_calls s1 = gpio_calls s ++ [EvOutput pin HIGH true] ∧
    pin_states s1 = <[pin := HIGH]> (pin_states s).
Proof.
  intros Hc Hin Hl.
  pose proof (coherent_turn_on pin s Hc) as Hk.
  rewrite turn_on_configured in * by done.
  rewrite coherent_write in * by done. simpl in *.
  eexists. split; [reflexivity |]. split; [exact Hk |]. by repeat split.
Qed.

End Coherent.

(** ** Operations on the simulation driver *)

Section Simulation.

Implicit Types (s : State MockGPIO) (pin : Z).

Lemma coherent_off_loop (l : list Z) (acc : bool) s :
  mock_coherent s ->
  (∀ p, p ∈ l -> p ∈ configured_pins s) ->
  lock_held s = false ->
  ∃ s',
    for_each l
      (fun success pin =>
         ok <- turn_off pin ;; ret (if negb ok then false else success))
      acc s
    = Ret acc s' ∧
    mock_coherent s' ∧
    configured_pins s' = configured_pins s ∧
    lock_held s' = false ∧
    gpio_calls s' = gpio_calls s ++ map (fun p => EvOutput p LOW true) l ∧
    (∀ p, p ∈ l -> pin_states s' !! p = Some LOW) ∧
    (∀ p, pin_states s !! p = Some LOW -> pin_states s' !! p = Some LOW).
Proof.
  revert acc s. induction l as [| p l IH]; intros acc s Hc Hin Hl.
  - exists s. simpl. rewrite app_nil_r.
    do 5 (split; [done |]). split; [| done].
    intros q Hq. by apply elem_of_nil in Hq.
  - assert (Hp : p ∈ configured_pins s) by (apply Hin, elem_of_cons; by left).
    destruct (coherent_turn_off_step p s Hc Hp Hl) as
      (s1 & Hrun1 & Hc1 & Hcfg1 & Hl1 & Hg1 & Hps1).
    destruct (IH acc s1) as (s' & Hrun & Hc' & Hcfg & Hl' & Hg & Hlow & Hkeep).
    { done. }
    { intros q Hq. rewrite Hcfg1. apply Hin, elem_of_cons. by right. }
    { done. }
    assert (Hkeep1 : ∀ q, pin_states s !! q = Some LOW ->
                          pin_states s1 !! q = Some LOW).
    { intros q Hq. rewrite Hps1. destruct (decide (p = q)) as [-> | Hne].
      - apply lookup_insert_eq.
      - by rewrite lookup_insert_ne. }
    exists s'. split.
    { simpl. unfold bind at 1. unfold bind at 1. rewrite Hrun1.
      unfold ret at 1. simpl. exact Hrun. }
    split; [done |]. split; [congruence |]. split; [done |].
    split; [simpl; by rewrite Hg, Hg1, <- app_assoc |]. split.
    + intros q [-> | Hq]%elem_of_cons; [| by apply Hlow].
      apply Hkeep. rewrite Hps1. apply lookup_insert_eq.
    + intros q Hq. by apply Hkeep, Hkeep1.
Qed.

(** X5: on the simulation driver, between two calls, [turn_all_off] returns
    [True]: it writes [LOW] once to each configured pin, every write
    succeeds, and afterwards the cache and the driver hold [LOW] for every
    configured pin. *)
Theorem turn_all_off_simulation s :
  reachable s ->
  ∃ s',
    turn_all_off s = Ret true s' ∧
    configured_pins s' = configured_pins s ∧
    gpio_calls s' =
      gpio_calls s ++ map (fun p => EvOutput p LOW true) (elements (configured_pins s)) ∧
    (∀ p, p ∈ configured_pins s ->
          pin_states s' !! p = Some LOW ∧
          Mock._pin_states (gpio s') !! p = Some LOW).
Proof.
  intros Hr.
  pose proof (reachable_coherent s Hr) as Hc.
  pose proof (reachable_lock_free s Hr) as Hl.
  destruct (coherent_off_loop (elements (configured_pins s)) true s Hc) as
    (s1 & Hrun & Hc1 & Hcfg & Hl1 & Hg & Hlow & _).
  { intros p. by rewrite elem_of_elements. }
  { done. }
  exists (add_log LogAllOff s1). split.
  { unfold turn_all_off, try_except. unfold bind at 1. unfold gets at 1.
    unfold bind at 1. by rewrite Hrun. }
  split; [done |]. split; [done |].
  intros p Hp. assert (Hps : pin_states s1 !! p = Some LOW).
  { apply Hlow. by apply elem_of_elements. }
  split; [done |]. simpl.
  destruct (Hc1 p) as (_ & v & Hd & Hv); [by rewrite Hcfg |]. congruence.
Qed.

(** One [toggle] of a configured pin in a coherent state. *)
Lemma toggle_flips pin s :
  mock_coherent s ->
  lock_held s = false ->
  pin ∈ configured_pins s ->
  ∃ v s',
    pin_states s !! pin = Some v ∧
    toggle pin s = Ret true s' ∧
    mock_coherent s' ∧ lock_held s' = false ∧
    configured_pins s' = configured_pins s ∧
    pin_states s' !! pin = Some (if bool_decide (v = HIGH) then LOW else HIGH) ∧
    gpio_calls s' =
      gpio_calls s ++
        [EvInput pin (Some v);
         EvOutput pin (if bool_decide (v = HIGH) then LOW else HIGH) true].
Proof.
  intros Hc Hl Hin. destruct (Hc pin Hin) as (Hm & v & Hd & Hv).
  exists v.
  pose proof (coherent_get_pin_state pin s Hc) as Hk.
  unfold toggle, try_except. unfold bind at 1.
  rewrite get_pin_state_configured in * by done. simpl in *.
  rewrite Hd in *. simpl in *.
  match type of Hk with mock_coherent ?st => set (s1 := st) in * end.
  assert (Hin1 : pin ∈ configured_pins s1) by done.
  assert (Hl1 : lock_held s1 = false) by done.
  destruct (decide (v = HIGH)) as [-> | Hne].
  - rewrite bool_decide_eq_true_2 by done.
    destruct (coherent_turn_off_step pin s1 Hk Hin1 Hl1) as
      (s' & Hrun & Hc' & Hcfg & Hl' & Hg & Hps).
    exists s'. rewrite Hrun. do 4 (split; [done |]).
    split; [by rewrite Hcfg |]. split.
    + rewrite Hps. apply lookup_insert_eq.
    + rewrite Hg. subst s1. simpl. by rewrite <- app_assoc.
  - rewrite (bool_decide_eq_false_2 (Some v = Some HIGH)) by congruence.
    rewrite (bool_decide_eq_false_2 (v = HIGH)) by done.
    destruct (coherent_turn_on_step pin s1 Hk Hin1 Hl1) as
      (s' & Hrun & Hc' & Hcfg & Hl' & Hg & Hps).
    exists s'. rewrite Hrun. do 4 (split; [done |]).
    split; [by rewrite Hcfg |]. split.
    + rewrite Hps. apply lookup_insert_eq.
    + rewrite Hg. subst s1. simpl. by rewrite <- app_assoc.
Qed.

(** X6: on the simulation driver, between two calls, [toggle] of a
    configured pin reads its level, returns [True] and leaves it [LOW] if it
    was [HIGH] and [HIGH] otherwise; a second [toggle] brings a pin that was
    [HIGH] or [LOW] back to its level. *)
Theorem toggle_simulation pin s :
  reachable s ->
  pin ∈ configured_pins s ->
  ∃ v s',
    pin_states s !! pin = Some v ∧
    toggle pin s = Ret true s' ∧
    pin_states s' !! pin = Some (if bool_decide (v = HIGH) then LOW else HIGH) ∧
    gpio_calls s' =
      gpio_calls s ++
        [EvInput pin (Some v);
         EvOutput pin (if bool_decide (v = HIGH) then LOW else HIGH) true] ∧
    (v = HIGH ∨ v = LOW ->
     ∃ s'', toggle pin s' = Ret true s'' ∧ pin_states s'' !! pin = Some v).
Proof.
  intros Hr Hin.
  destruct (toggle_flips pin s (reachable_coherent s Hr)
              (reachable_lock_free s Hr) Hin) as
    (v & s' & Hv & Hrun & Hc' & Hl' & Hcfg & Hps & Hg).
  exists v, s'. do 4 (split; [done |]).
  intros Hv01.
  destruct (toggle_flips pin s' Hc' Hl') as
    (v' & s'' & Hv' & Hrun' & _ & _ & _ & Hps' & _); [by rewrite Hcfg |].
  exists s''. split; [done |]. rewrite Hps'.
  assert (v' = if bool_decide (v = HIGH) then LOW else HIGH) as -> by congruence.
  by destruct Hv01 as [-> | ->].
Qed.



End Simulation.

(** ** Invalid pins, everywhere *)

Section Rejection.

Context {drv : Driver}.
Implicit Types (s : State drv) (pin : Z).

Lemma turn_on_rejects pin s :
  pin ∉ valid_pins -> pin ∉ configured_pins s ->
  turn_on pin s =
    Ret false (add_log (LogInvalidPin pin) (add_log (LogAutoConfigure pin) s)).
Proof.
  intros Hv Hc. rewrite turn_on_unconfigured by done.
  by rewrite setup_pin_invalid.
Qed.

Lemma turn_off_rejects pin s :
  pin ∉ valid_pins -> pin ∉ configured_pins s ->
  turn_off pin s =
    Ret false (add_log (LogInvalidPin pin) (add_log (LogAutoConfigure pin) s)).
Proof.
  intros Hv Hc. rewrite turn_off_unconfigured by done.
  by rewrite setup_pin_invalid.
Qed.

(** X7: between two calls, every operation about a single pin rejects a pin
    outside 2..27: it returns its failure value ([False], [None] from
    [get_pin_state], a dictionary mapping the pin to [False] from
    [setup_pins]) and only writes to the log; no call reaches the library and
    the registry is unchanged.  The one exception is [blink] with
    [times <= 0], which returns [True] without looking at the pin. *)
Theorem invalid_pin_rejected_everywhere (o : Op) pin s :
  reachable s ->
  ¬ (2 <= pin <= 27) ->
  touched o = Some [pin] ->
  ∃ s', call o s = Ret (rejection o) s' ∧ only_logged s s'.
Proof.
  intros Hr Hrange Ht.
  assert (Hv : pin ∉ valid_pins) by (by rewrite valid_pins_range).
  assert (Hc : pin ∉ configured_pins s).
  { intros Hin. apply Hv. by apply (reachable_pins_valid s Hr). }
  destruct o; simpl in Ht; try discriminate; injection Ht as ->; simpl.
  - unfold bind. rewrite setup_pin_invalid by done. by eexists.
  - unfold setup_pins. simpl. unfold bind.
    rewrite setup_pin_invalid by done. simpl. by eexists.
  - unfold bind. rewrite turn_on_rejects by done. by eexists.
  - unfold bind. rewrite turn_off_rejects by done. by eexists.
  - unfold toggle, try_except, bind.
    rewrite get_pin_state_unconfigured by done. simpl.
    rewrite turn_on_rejects by done. by eexists.
  - unfold bind. rewrite get_pin_state_unconfigured by done. by eexists.
  - unfold pulse, try_except, bind. rewrite turn_on_rejects by done.
    by eexists.
  - unfold blink, try_except. unfold bind at 1.
    destruct (Z.to_nat times) as [| n] eqn:E; simpl.
    + rewrite bool_decide_eq_true_2 by lia. by eexists.
    + rewrite bool_decide_eq_false_2 by lia.
      unfold bind. rewrite turn_on_rejects by done. by eexists.
Qed.

(** ** [pulse] with a negative duration *)

(** X8: [pulse] of a configured pin with a negative duration drives the pin
    [HIGH], then [time.sleep] raises: it returns [False] and the pin stays
    [HIGH], no write of [LOW] being made. *)
Theorem pulse_negative_duration pin duration s :
  pin ∈ configured_pins s ->
  lock_held s = false ->
  (drv_output drv pin HIGH (gpio s)).1 = true ->
  Qle_bool 0 duration = false ->
  ∃ s',
    pulse pin duration s = Ret false s' ∧
    pin_states s' !! pin = Some HIGH ∧
    gpio_calls s' = gpio_calls s ++ [EvOutput pin HIGH true] ∧
    log s' = log s ++ [LogTurnedOn pin; LogPulseError pin].
Proof.
  intros Hin Hl Hw Hd. unfold pulse, try_except. unfold bind at 1.
  rewrite turn_on_configured by done. simpl. rewrite Hw. simpl.
  unfold bind, time_sleep. rewrite Hd. simpl.
  eexists. split; [reflexivity |]. simpl.
  split; [apply lookup_insert_eq |]. split; [done |].
  by rewrite <- app_assoc.
Qed.

End Rejection.

(** ** The snapshot and the queries *)

Section Snapshot.

Context {drv : Driver}.
Implicit Types (s : State drv) (pin : Z).

(** One read of a configured pin. *)
Lemma get_pin_state_step pin s :
  pin ∈ configured_pins s ->
  lock_held s = false ->
  ∃ st s1,
    get_pin_state pin s = Ret st s1 ∧
    configured_pins s1 = configured_pins s ∧
    lock_held s1 = false ∧
    (∀ v, st = Some v -> pin_states s1 !! pin = Some v) ∧
    (∀ q, q ≠ pin -> pin_states s1 !! q = pin_states s !! q).
Proof.
  intros Hin Hl. rewrite get_pin_state_configured by done. simpl.
  destruct (drv_input drv pin (gpio s)) as [[v |] d]; simpl;
    eexists _, _; (split; [reflexivity |]); simpl.
  - do 2 (split; [done |]). split.
    + intros v' [= <-]. apply lookup_insert_eq.
    + intros q Hq. by rewrite lookup_insert_ne.
  - by repeat split.
Qed.

Lemma get_all_pins_status_loop (l : list Z) (acc : gmap Z pin_status) s :
  NoDup l ->
  (∀ p, p ∈ l -> p ∈ configured_pins s) ->
  lock_held s = false ->
  ∃ m s',
    for_each l
      (fun status pin =>
         st <- get_pin_state pin ;;
         ret (<[pin := {| state := st;
                          state_name := if bool_decide (st = Some HIGH)
                                        then "HIGH" else "LOW";
                          configured := true |}]> status))
      acc s
    = Ret m s' ∧
    configured_pins s' = configured_pins s ∧
    lock_held s' = false ∧
    (∀ p, p ∈ l ->
       ∃ st, m !! p = Some {| state := st;
                              state_name := if bool_decide (st = Some HIGH)
                                            then "HIGH" else "LOW";
                              configured := true |} ∧
             ∀ v, st = Some v -> pin_states s' !! p = Some v) ∧
    (∀ p, p ∉ l -> m !! p = acc !! p ∧ pin_states s' !! p = pin_states s !! p).
Proof.
  revert acc s. induction l as [| x l IH]; intros acc s Hnd Hin Hl.
  - exists acc, s. simpl. do 3 (split; [done |]). split; [| done].
    intros p Hp. by apply elem_of_nil in Hp.
  - apply NoDup_cons in Hnd as [Hx Hnd].
    assert (Hxc : x ∈ configured_pins s) by (apply Hin, elem_of_cons; by left).
    destruct (get_pin_state_step x s Hxc Hl) as
      (st & s1 & Hrun1 & Hcfg1 & Hl1 & Hcache1 & Hother1).
    destruct (IH (<[x := {| state := st;
                            state_name := if bool_decide (st = Some HIGH)
                                          then "HIGH" else "LOW";
                            configured := true |}]> acc) s1 Hnd)
      as (m & s' & Hrun & Hcfg & Hl' & Hin' & Hout').
    { intros q Hq. rewrite Hcfg1. apply Hin, elem_of_cons. by right. }
    { done. }
    exists m, s'. split.
    { simpl. unfold bind at 1. unfold bind at 1. rewrite Hrun1.
      unfold ret at 1. exact Hrun. }
    split; [congruence |]. split; [done |]. split.
    + intros p [-> | Hp]%elem_of_cons; [| by apply Hin'].
      destruct (Hout' x Hx) as [Hm Hps]. exists st. split.
      * rewrite Hm. apply lookup_insert_eq.
      * intros v Hv. rewrite Hps. by apply Hcache1.
    + intros p Hp. apply not_elem_of_cons in Hp as [Hne Hp].
      destruct (Hout' p Hp) as [Hm Hps]. split.
      * rewrite Hm. by rewrite lookup_insert_ne.
      * rewrite Hps. by apply Hother1.
Qed.

(** X10: called with the lock free, [get_all_pins_status] returns a mapping
    whose keys are exactly the configured pins; every entry has
    [configured = True], its name is "HIGH" exactly when its state is [HIGH]
    (a failed read, state [None], is named "LOW"), and a state that was read
    is also the cached level afterwards.  The set of configured pins is
    unchanged. *)
Theorem get_all_pins_status_covers_registry s :
  lock_held s = false ->
  ∃ m s',
    get_all_pins_status s = Ret m s' ∧
    dom m = configured_pins s ∧
    configured_pins s' = configured_pins s ∧
    ∀ p e, m !! p = Some e ->
      configured e = true ∧
      state_name e = (if bool_decide (state e = Some HIGH) then "HIGH" else "LOW") ∧
      ∀ v, state e = Some v -> pin_states s' !! p = Some v.
Proof.
  intros Hl.
  destruct (get_all_pins_status_loop (elements (configured_pins s)) ∅ s)
    as (m & s' & Hrun & Hcfg & _ & Hin & Hout).
  { apply NoDup_elements. }
  { intros p. by rewrite elem_of_elements. }
  { done. }
  exists m, s'. split.
  { unfold get_all_pins_status. unfold bind at 1. unfold gets at 1. exact Hrun. }
  split.
  { apply set_eq. intros p. rewrite elem_of_dom. split.
    - intros [e He]. destruct (decide (p ∈ configured_pins s)) as [| Hn]; [done |].
      destruct (Hout p) as [Hm _]; [by rewrite elem_of_elements |].
      rewrite Hm, lookup_empty in He. discriminate.
    - intros Hp. destruct (Hin p) as (st & -> & _); [by rewrite elem_of_elements |].
      eauto. }
  split; [done |].
  intros p e He.
  destruct (decide (p ∈ configured_pins s)) as [Hp | Hn].
  - destruct (Hin p) as (st & Hm & Hc); [by rewrite elem_of_elements |].
    rewrite Hm in He. injection He as <-. simpl. by repeat split.
  - destruct (Hout p) as [Hm _]; [by rewrite elem_of_elements |].
    rewrite Hm, lookup_empty in He. discriminate.
Qed.

(** X11: the three queries never block, even while the lock is held, and
    leave the controller as it is; they agree with each other:
    [get_configured_pins] lists every configured pin once,
    [is_pin_configured] is membership in that list, and [get_system_info]
    reports that list, its length and the initialization flag. *)
Theorem queries_agree pin s :
  ∃ l i,
    get_configured_pins s = Ret l s ∧
    is_pin_configured pin s = Ret (bool_decide (pin ∈ l)) s ∧
    get_system_info s = Ret i s ∧
    NoDup l ∧
    (∀ p, p ∈ l ↔ p ∈ configured_pins s) ∧
    info_configured_pins i = l ∧
    total_configured i = length l ∧
    initialized i = is_initialized s ∧
    gpio_available i = GPIO_AVAILABLE drv.
Proof.
  eexists _, _. split; [reflexivity |]. split.
  { unfold is_pin_configured, bind, gets, ret. do 2 f_equal.
    apply bool_decide_ext. by rewrite elem_of_elements. }
  split; [reflexivity |]. split; [apply NoDup_elements |].
  split; [intros p; apply elem_of_elements |]. by repeat split.
Qed.

End Snapshot.

(** ** [setup_pins] on the simulation driver *)

Lemma dict_get_tabulate {V} (f : Z -> V) (p : Z) (l : list Z) :
  dict_get p (map (fun q => (q, f q)) l) =
    if bool_decide (p ∈ l) then Some (f p) else None.
Proof.
  induction l as [| x l IH].
  - done.
  - cbn [map dict_get]. rewrite IH.
    destruct (decide (x = p)) as [-> | Hne].
    + rewrite bool_decide_eq_true_2 by done.
      by rewrite bool_decide_eq_true_2 by (apply elem_of_cons; by left).
    + rewrite bool_decide_eq_false_2 by done.
      apply (f_equal (fun b : bool => if b then Some (f p) else None)).
      apply bool_decide_ext. rewrite elem_of_cons. intuition congruence.
Qed.

Lemma reverse_map {A B} (f : A -> B) (l : list A) :
  reverse (map f l) = map f (reverse l).
Proof.
  induction l as [| x l IH]; [done |].
  simpl. by rewrite !reverse_cons, map_app, IH.
Qed.

Section SimulationSetup.

Implicit Types (s : State MockGPIO) (pin : Z).

Lemma mock_setup_pin_step pin i s :
  lock_held s = false ->
  ∃ s1,
    setup_pin pin i s = Ret (bool_decide (pin ∈ valid_pins)) s1 ∧
    lock_held s1 = false ∧
    (∀ q, q ∈ configured_pins s1 ↔
          q ∈ configured_pins s ∨ (q = pin ∧ pin ∈ valid_pins)) ∧
    (pin ∈ valid_pins -> pin_states s1 !! pin = Some i) ∧
    (∀ q, q ≠ pin -> pin_states s1 !! q = pin_states s !! q).
Proof.
  intros Hl. destruct (decide (pin ∈ valid_pins)) as [Hv | Hv].
  - rewrite setup_pin_valid by done. simpl.
    rewrite bool_decide_eq_true_2 by done.
    eexists. split; [reflexivity |]. simpl. split; [done |]. split.
    + intros q. rewrite elem_of_union, elem_of_singleton. intuition congruence.
    + split; [intros _; apply lookup_insert_eq |].
      intros q Hq. by rewrite lookup_insert_ne.
  - rewrite setup_pin_invalid by done.
    rewrite bool_decide_eq_false_2 by done.
    eexists. split; [reflexivity |]. simpl. split; [done |].
    split; [intuition congruence | done].
Qed.

Lemma mock_setup_pins_loop (pins : list Z) i (acc : list (Z * bool)) s :
  lock_held s = false ->
  ∃ s',
    for_each pins
      (fun results pin =>
         ok <- setup_pin pin i ;; ret (dict_set pin ok results))
      acc s
    = Ret (dict_fill (map (fun p => (p, bool_decide (p ∈ valid_pins))) pins) acc) s' ∧
    lock_held s' = false ∧
    (∀ q, q ∈ configured_pins s' ↔
          q ∈ configured_pins s ∨ (q ∈ pins ∧ q ∈ valid_pins)) ∧
    (∀ q, q ∈ pins -> q ∈ valid_pins -> pin_states s' !! q = Some i) ∧
    (∀ q, q ∉ pins -> pin_states s' !! q = pin_states s !! q).
Proof.
  revert acc s. induction pins as [| p pins IH]; intros acc s Hl.
  - exists s. simpl. split; [done |]. split; [done |].
    split; [| split; [| done]].
    + intros q. rewrite elem_of_nil. intuition congruence.
    + intros q Hq. by apply elem_of_nil in Hq.
  - destruct (mock_setup_pin_step p i s Hl) as (s1 & Hrun1 & Hl1 & Hcfg1 & Hset1 & Hoth1).
    destruct (IH (dict_set p (bool_decide (p ∈ valid_pins)) acc) s1 Hl1)
      as (s' & Hrun & Hl' & Hcfg & Hset & Hoth).
    exists s'. split.
    { simpl. unfold bind at 1. unfold bind at 1. rewrite Hrun1.
      unfold ret at 1. exact Hrun. }
    split; [done |]. split; [| split].
    + intros q. rewrite Hcfg, Hcfg1, elem_of_cons. intuition congruence.
    + intros q Hq Hv. destruct (decide (q ∈ pins)) as [Hin | Hnin];
        [by apply Hset |].
      apply elem_of_cons in Hq as [-> | Hq]; [| done].
      rewrite Hoth by done. by apply Hset1.
    + intros q Hq. apply not_elem_of_cons in Hq as [Hne Hq].
      rewrite Hoth by done. by apply Hoth1.
Qed.

(** X12: on the simulation driver, called with the lock free, [setup_pins]
    reports [True] exactly for the pins of its input that are in 2..27, and
    has no entry for any other pin; afterwards the configured pins are the
    earlier ones and the valid pins of the input, each valid pin of the
    input is cached at the initial level, and the cached level of every pin
    outside the input is unchanged. *)
Theorem setup_pins_simulation (pins : list Z) i s :
  lock_held s = false ->
  ∃ res s',
    setup_pins pins i s = Ret res s' ∧
    (∀ p, dict_get p res =
            if bool_decide (p ∈ pins) then Some (bool_decide (2 <= p <= 27))
            else None) ∧
    (∀ q, q ∈ configured_pins s' ↔
          q ∈ configured_pins s ∨ (q ∈ pins ∧ 2 <= q <= 27)) ∧
    (∀ q, q ∈ pins -> 2 <= q <= 27 -> pin_states s' !! q = Some i) ∧
    (∀ q, q ∉ pins -> pin_states s' !! q = pin_states s !! q).
Proof.
  intros Hl.
  destruct (mock_setup_pins_loop pins i [] s Hl) as (s1 & Hrun & Hl1 & Hcfg & Hset & Hoth).
  set (res := dict_fill _ []) in *.
  assert (Hcont : ∃ s', setup_pins pins i s = Ret res s' ∧
                        configured_pins s' = configured_pins s1 ∧
                        pin_states s' = pin_states s1).
  { unfold setup_pins. unfold bind at 1. rewrite Hrun.
    unfold bind, ret, logger, modify.
    destruct (bool_decide (_ = [])), (bool_decide (_ = []));
      eexists; (split; [reflexivity |]); by simpl. }
  destruct Hcont as (s' & Hrun' & Hcfg' & Hps').
  exists res, s'. split; [done |]. split; [| split; [| split]].
  - intros p. subst res. rewrite dict_fill_get. simpl.
    rewrite reverse_map, dict_get_tabulate.
    destruct (decide (p ∈ pins)) as [Hin | Hnin].
    + rewrite (bool_decide_eq_true_2 (p ∈ reverse pins))
        by (by rewrite elem_of_reverse).
      rewrite (bool_decide_eq_true_2 (p ∈ pins)) by done.
      f_equal. apply bool_decide_ext, valid_pins_range.
    + rewrite (bool_decide_eq_false_2 (p ∈ reverse pins))
        by (by rewrite elem_of_reverse).
      by rewrite (bool_decide_eq_false_2 (p ∈ pins)) by done.
  - intros q. rewrite Hcfg', Hcfg. by rewrite valid_pins_range.
  - intros q Hq Hv. rewrite Hps'. apply Hset; [done |].
    by apply valid_pins_range.
  - intros q Hq. rewrite Hps'. by apply Hoth.
Qed.

End SimulationSetup.

(** ** The request layer *)

Section HandlerFacts.

Context {drv : Driver}.
Implicit Types (s : State drv) (pin : Z).

(** X13: called with the lock free, the handlers of [/on] and [/off] answer
    from what the controller returned and leave the controller as the
    operation left it: the success payload with code 200 when it returned
    [True], the error payload with code 500 when it returned [False]; their
    own exception branch is never taken. *)
Theorem switch_handlers_report_the_result pin s :
  lock_held s = false ->
  (∃ b s',
     turn_on pin s = Ret b s' ∧
     turn_pin_on pin s =
       Ret (if b then
              ([("status", JStr "success"); ("message", JStr "turned ON");
                ("pin", JInt pin); ("state", JStr "HIGH")], 200)
            else
              ([("status", JStr "error"); ("message", JStr "Failed to turn ON");
                ("pin", JInt pin)], 500)) s') ∧
  (∃ b s',
     turn_off pin s = Ret b s' ∧
     turn_pin_off pin s =
       Ret (if b then
              ([("status", JStr "success"); ("message", JStr "turned OFF");
                ("pin", JInt pin); ("state", JStr "LOW")], 200)
            else
              ([("status", JStr "error"); ("message", JStr "Failed to turn OFF");
                ("pin", JInt pin)], 500)) s').
Proof.
  intros Hl. split.
  - destruct (lock_safe_returns (turn_on pin) s) as (b & s' & Hrun & _);
      auto using lock_safe_turn_on, no_raise_turn_on.
    exists b, s'. split; [done |].
    unfold turn_pin_on, try_except, bind. rewrite Hrun. by destruct b.
  - destruct (lock_safe_returns (turn_off pin) s) as (b & s' & Hrun & _);
      auto using lock_safe_turn_off, no_raise_turn_off.
    exists b, s'. split; [done |].
    unfold turn_pin_off, try_except, bind. rewrite Hrun. by destruct b.
Qed.

(** X14: with no pin configured, when [GPIO.cleanup] raises, [cleanup]
    swallows the error and the handler of [/cleanup] still answers with
    status "success" and code 200, although the controller is still
    initialized; the next [cleanup] calls the library again. *)
Theorem cleanup_handler_hides_failure s :
  is_initialized s = true ->
  lock_held s = false ->
  configured_pins s = ∅ ->
  (drv_cleanup drv (gpio s)).1 = false ->
  ∃ s',
    cleanup_gpio s =
      Ret ([("status", JStr "success");
            ("message", JStr "GPIO cleanup completed")], 200) s' ∧
    is_initialized s' = true ∧
    lock_held s' = false ∧
    configured_pins s' = ∅ ∧
    gpio_calls s' = gpio_calls s ++ [EvCleanup false] ∧
    log s' = (log s ++ [LogAllOff]) ++ [LogCleanupError].
Proof.
  intros Hi Hl He Hf. unfold cleanup_gpio, try_except, bind.
  rewrite cleanup_without_pins by done. simpl. rewrite Hf.
  eexists. split; [reflexivity |]. by simpl.
Qed.

End HandlerFacts.

(** ** Partial effects *)

Section PartialEffects.

Context {drv : Driver}.
Implicit Types (s : State drv) (pin : Z).

(** X15: [toggle] treats every reading other than [HIGH] as low.  When the
    read of a configured pin fails, [toggle] logs the error and switches the
    pin on; on a pin that is not configured it runs [turn_on], which
    configures the pin first. *)
Theorem toggle_without_a_reading pin s :
  lock_held s = false ->
  (pin ∉ configured_pins s ->
   toggle pin s = turn_on pin (add_log (LogNotConfigured pin) s)) ∧
  (pin ∈ configured_pins s ->
   (drv_input drv pin (gpio s)).1 = None ->
   let d := (drv_input drv pin (gpio s)).2 in
   (drv_output drv pin HIGH d).1 = true ->
   ∃ s',
     toggle pin s = Ret true s' ∧
     pin_states s' !! pin = Some HIGH ∧
     gpio_calls s' = gpio_calls s ++ [EvInput pin None; EvOutput pin HIGH true] ∧
     log s' = log s ++ [LogReadError pin; LogTurnedOn pin]).
Proof.
  intros Hl. split.
  - intros Hn. unfold toggle, try_except, bind.
    rewrite get_pin_state_unconfigured by done. simpl.
    destruct (turn_on pin _) as [b s1 | s1 |] eqn:E; [done | | done].
    by apply no_raise_turn_on in E.
  - intros Hin Hr d Hw. unfold toggle, try_except. unfold bind at 1.
    rewrite get_pin_state_configured by done. simpl. rewrite Hr. simpl.
    rewrite turn_on_configured by done. simpl. fold d. rewrite Hw.
    eexists. split; [reflexivity |]. simpl.
    split; [apply lookup_insert_eq |]. by rewrite <- !app_assoc.
Qed.

(** X16: when [turn_on] or [turn_off] configures a pin by itself and the
    write that follows fails, it returns [False] but the pin stays
    configured, cached at [LOW]. *)
Theorem failed_write_keeps_auto_configuration pin s :
  pin ∉ configured_pins s ->
  lock_held s = false ->
  2 <= pin <= 27 ->
  (drv_setup drv pin LOW (gpio s)).1 = true ->
  let d := (drv_setup drv pin LOW (gpio s)).2 in
  ((drv_output drv pin HIGH d).1 = false ->
   ∃ s',
     turn_on pin s = Ret false s' ∧
     pin ∈ configured_pins s' ∧
     pin_states s' !! pin = Some LOW ∧
     gpio_calls s' =
       gpio_calls s ++ [EvSetup pin LOW true; EvOutput pin HIGH false]) ∧
  ((drv_output drv pin LOW d).1 = false ->
   ∃ s',
     turn_off pin s = Ret false s' ∧
     pin ∈ configured_pins s' ∧
     pin_states s' !! pin = Some LOW ∧
     gpio_calls s' =
       gpio_calls s ++ [EvSetup pin LOW true; EvOutput pin LOW false]).
Proof.
  intros Hn Hl Hr Hs d. apply valid_pins_range in Hr.
  assert (Hin : ∀ (s0 : State drv) (c : gset Z), pin ∈ {[pin]} ∪ c).
  { intros _ c. apply elem_of_union_l. by apply elem_of_singleton. }
  split; intros Hw.
  - rewrite turn_on_unconfigured by done.
    rewrite setup_pin_valid by done. simpl. rewrite Hs.
    rewrite turn_on_write_phase by (simpl; apply (Hin s)).
    rewrite turn_on_configured; [| simpl; apply (Hin s) | done].
    simpl. fold d. rewrite Hw.
    eexists. split; [reflexivity |]. simpl.
    split; [apply (Hin s) |]. split; [apply lookup_insert_eq |].
    by rewrite <- app_assoc.
  - rewrite turn_off_unconfigured by done.
    rewrite setup_pin_valid by done. simpl. rewrite Hs.
    rewrite turn_off_write_phase by (simpl; apply (Hin s)).
    rewrite turn_off_configured; [| simpl; apply (Hin s) | done].
    simpl. fold d. rewrite Hw.
    eexists. split; [reflexivity |]. simpl.
    split; [apply (Hin s) |]. split; [apply lookup_insert_eq |].
    by rewrite <- app_assoc.
Qed.

(** X17: with no pin configured and a library whose [cleanup] succeeds,
    [cleanup] of an initialized controller calls [GPIO.cleanup] once, empties
    the registry and lowers the flag; a second [cleanup] then changes
    nothing. *)
Theorem cleanup_twice_without_pin s :
  is_initialized s = true ->
  lock_held s = false ->
  configured_pins s = ∅ ->
  (drv_cleanup drv (gpio s)).1 = true ->
  ∃ s',
    cleanup s = Ret tt s' ∧
    cleanup s' = Ret tt s' ∧
    configured_pins s' = ∅ ∧ pin_states s' = ∅ ∧
    is_initialized s' = false ∧
    gpio s' = (drv_cleanup drv (gpio s)).2 ∧
    gpio_calls s' = gpio_calls s ++ [EvCleanup true].
Proof.
  intros Hi Hl He Hok. rewrite cleanup_without_pins by done. simpl.
  rewrite Hok. eexists. split; [reflexivity |].
  split; [by apply cleanup_released |]. by simpl.
Qed.

End PartialEffects.

(** ** The simulation driver by itself *)

(** X18: the simulation driver reads back what was written: after
    [setup] a pin reads its initial level, [LOW] when none is given; a write
    to a pin that has a mode succeeds and the pin then reads the written
    level, the other pins reading as before; a write to a pin without a mode
    raises and changes nothing; after [cleanup] every pin reads [LOW] and
    every write raises. *)
Theorem simulation_round_trips (pin q level : Z) (mode : string)
    (initial : option Z) (st : Mock.MockState) :
  (Mock.input pin (Mock.setup pin mode initial st).2).1
    = Some (default LOW initial) ∧
  (is_Some (Mock._pin_modes st !! pin) ->
   (Mock.output pin level st).1 = true ∧
   (Mock.input pin (Mock.output pin level st).2).1 = Some level ∧
   (q ≠ pin ->
    (Mock.input q (Mock.output pin level st).2).1 = (Mock.input q st).1)) ∧
  (Mock._pin_modes st !! pin = None ->
   Mock.output pin level st = (false, st)) ∧
  (Mock.input pin (Mock.cleanup st).2).1 = Some LOW ∧
  Mock.output pin level (Mock.cleanup st).2 = (false, Mock.empty).
Proof.
  split; [| split; [| split; [| split]]].
  - unfold Mock.input, Mock.setup. simpl.
    destruct initial; simpl; by rewrite lookup_insert_eq.
  - intros Hm. rewrite Mock_output_configured by done. simpl.
    split; [done |]. split.
    + unfold Mock.input. simpl. by rewrite lookup_insert_eq.
    + intros Hne. unfold Mock.input. simpl. by rewrite lookup_insert_ne.
  - intros Hm. unfold Mock.output. rewrite Hm.
    rewrite bool_decide_eq_false_2; [done |]. by intros [x Hx].
  - done.
  - done.
Qed.

(** ** The properties above on concrete runs *)

Lemma pin_17_configured : 17 ∈ configured_pins with_pin_17.
Proof. apply (bool_decide_unpack _). vm_compute. exact I. Defined.

Lemma only_valid_pins_reach_the_library_witness :
  reachable with_pin_17 ∧
  (∀ p, p ∈ configured_pins with_pin_17 -> 2 <= p <= 27) ∧
  (size (configured_pins with_pin_17) <= 26)%nat ∧
  (∀ e p, e ∈ gpio_calls with_pin_17 -> ev_pin e = Some p -> 2 <= p <= 27).
Proof.
  split; [exact with_pin_17_reachable |].
  exact (only_valid_pins_reach_the_library with_pin_17 with_pin_17_reachable).
Defined.

Lemma operation_leaves_other_pins_witness :
  touched (OpSetupPin 17 HIGH) = Some [17] ∧
  (27 ∉ [17]) ∧
  (∃ s', call (OpSetupPin 17 HIGH) with_pin_17 = Ret (VBool true) s' ∧
         pin_states s' !! 27 = pin_states with_pin_17 !! 27 ∧
         (27 ∈ configured_pins s' ↔ 27 ∈ configured_pins with_pin_17)).
Proof.
  assert (Hq : 27 ∉ [17]).
  { apply (bool_decide_unpack _). vm_compute. exact I. }
  split; [reflexivity |]. split; [exact Hq |].
  eexists. split; [vm_compute; reflexivity |].
  eapply (operation_leaves_other_pins (OpSetupPin 17 HIGH) [17] 27 with_pin_17);
    [reflexivity | exact Hq | vm_compute; reflexivity].
Defined.

Lemma released_with_pin_after : after released_board released_with_pin.
Proof.
  apply (after_call released_board (OpSetupPin 17 LOW) released_board (VBool true)).
  - apply after_refl.
  - vm_compute. reflexivity.
Defined.

(** After a release, [setup_pin(17)] still configures the pin, and
    [cleanup()] then leaves it configured. *)
Lemma released_stays_released_witness :
  is_initialized released_board = false ∧
  after released_board released_with_pin ∧
  17 ∈ configured_pins released_with_pin ∧
  cleanup released_with_pin = Ret tt released_with_pin.
Proof.
  split; [reflexivity |]. split; [exact released_with_pin_after |].
  split; [apply (bool_decide_unpack _); vm_compute; exact I |].
  exact (proj2 (proj2 (released_stays_released released_board released_with_pin
                         eq_refl released_with_pin_after)) eq_refl).
Defined.

Lemma simulation_agrees_with_cache_witness :
  reachable with_pin_17 ∧
  17 ∈ configured_pins with_pin_17 ∧
  is_Some (Mock._pin_modes (gpio with_pin_17) !! 17) ∧
  ∃ v, Mock._pin_states (gpio with_pin_17) !! 17 = Some v ∧
       pin_states with_pin_17 !! 17 = Some v ∧
       returned (get_pin_state 17 with_pin_17) = Some (Some v).
Proof.
  split; [exact with_pin_17_reachable |]. split; [exact pin_17_configured |].
  exact (simulation_agrees_with_cache with_pin_17 17
           with_pin_17_reachable pin_17_configured).
Defined.

Lemma turn_all_off_simulation_witness :
  reachable with_pin_17 ∧
  ∃ s',
    turn_all_off with_pin_17 = Ret true s' ∧
    configured_pins s' = configured_pins with_pin_17 ∧
    gpio_calls s' =
      gpio_calls with_pin_17 ++
        map (fun p => EvOutput p LOW true) (elements (configured_pins with_pin_17)) ∧
    (∀ p, p ∈ configured_pins with_pin_17 ->
          pin_states s' !! p = Some LOW ∧
          Mock._pin_states (gpio s') !! p = Some LOW).
Proof.
  split; [exact with_pin_17_reachable |].
  exact (turn_all_off_simulation with_pin_17 with_pin_17_reachable).
Defined.

Lemma toggle_simulation_witness :
  reachable with_pin_17 ∧
  17 ∈ configured_pins with_pin_17 ∧
  ∃ v s',
    pin_states with_pin_17 !! 17 = Some v ∧
    toggle 17 with_pin_17 = Ret true s' ∧
    pin_states s' !! 17 = Some (if bool_decide (v = HIGH) then LOW else HIGH).
Proof.
  split; [exact with_pin_17_reachable |]. split; [exact pin_17_configured |].
  destruct (toggle_simulation 17 with_pin_17 with_pin_17_reachable
              pin_17_configured) as (v & s' & Hv & Hrun & Hps & _).
  exists v, s'. split; [exact Hv |]. split; [exact Hrun | exact Hps].
Defined.

Example toggle_twice :
  returned (toggle 17 with_pin_17) = Some true ∧
  (pin_states <$> final (toggle 17 with_pin_17)) = Some {[17 := HIGH]} ∧
  (pin_states <$> final (and_then (toggle 17 with_pin_17) (toggle 17)))
    = Some {[17 := LOW]}.
Proof. by vm_compute. Qed.

Lemma invalid_pin_rejected_everywhere_witness :
  reachable with_pin_17 ∧
  ¬ (2 <= 99 <= 27) ∧
  touched (OpToggle 99) = Some [99] ∧
  ∃ s', call (OpToggle 99) with_pin_17 = Ret (VBool false) s' ∧
        only_logged with_pin_17 s'.
Proof.
  assert (Hr : ¬ (2 <= 99 <= 27)) by lia.
  split; [exact with_pin_17_reachable |]. split; [exact Hr |].
  split; [reflexivity |].
  exact (invalid_pin_rejected_everywhere (OpToggle 99) 99 with_pin_17
           with_pin_17_reachable Hr eq_refl).
Defined.

Lemma pulse_negative_duration_witness :
  17 ∈ configured_pins with_pin_17 ∧
  lock_held with_pin_17 = false ∧
  (drv_output MockGPIO 17 HIGH (gpio with_pin_17)).1 = true ∧
  Qle_bool 0 (-1 # 2) = false ∧
  ∃ s',
    pulse 17 (-1 # 2) with_pin_17 = Ret false s' ∧
    pin_states s' !! 17 = Some HIGH ∧
    gpio_calls s' = gpio_calls with_pin_17 ++ [EvOutput 17 HIGH true] ∧
    log s' = log with_pin_17 ++ [LogTurnedOn 17; LogPulseError 17].
Proof.
  assert (Hw : (drv_output MockGPIO 17 HIGH (gpio with_pin_17)).1 = true)
    by (vm_compute; reflexivity).
  split; [exact pin_17_configured |]. split; [reflexivity |].
  split; [exact Hw |]. split; [reflexivity |].
  exact (pulse_negative_duration 17 (-1 # 2) with_pin_17
           pin_17_configured eq_refl Hw eq_refl).
Defined.


Lemma get_all_pins_status_covers_registry_witness :
  lock_held with_pin_17 = false ∧
  ∃ m s',
    get_all_pins_status with_pin_17 = Ret m s' ∧
    dom m = configured_pins with_pin_17 ∧
    configured_pins s' = configured_pins with_pin_17 ∧
    ∀ p e, m !! p = Some e ->
      configured e = true ∧
      state_name e = (if bool_decide (state e = Some HIGH) then "HIGH" else "LOW") ∧
      ∀ v, state e = Some v -> pin_states s' !! p = Some v.
Proof.
  split; [reflexivity |].
  exact (get_all_pins_status_covers_registry with_pin_17 eq_refl).
Defined.

(** A read that fails is reported with state [None] and named "LOW". *)
Example snapshot_of_a_failed_read :
  returned (get_all_pins_status no_read_board) =
    Some {[17 := {| state := None; state_name := "LOW"; configured := true |}]}.
Proof. by vm_compute. Qed.

Lemma setup_pins_simulation_witness :
  lock_held fresh = false ∧
  ∃ res s',
    setup_pins [17; 99; 17] HIGH fresh = Ret res s' ∧
    dict_get 17 res = Some true ∧
    dict_get 99 res = Some false ∧
    dict_get 27 res = None ∧
    (∀ q, q ∈ configured_pins s' ↔
          q ∈ configured_pins fresh ∨ (q ∈ [17; 99; 17] ∧ 2 <= q <= 27)).
Proof.
  split; [reflexivity |].
  destruct (setup_pins_simulation [17; 99; 17] HIGH fresh eq_refl)
    as (res & s' & Hrun & Hres & Hcfg & _).
  exists res, s'. split; [exact Hrun |].
  split; [exact (Hres 17) |]. split; [exact (Hres 99) |].
  split; [exact (Hres 27) | exact Hcfg].
Defined.

Lemma switch_handlers_report_the_result_witness :
  lock_held fresh = false ∧
  ∃ b s', turn_off 99 fresh = Ret b s' ∧
          returned (turn_pin_off 99 fresh) =
            Some ([("status", JStr "error"); ("message", JStr "Failed to turn OFF");
                   ("pin", JInt 99)], 500).
Proof.
  split; [reflexivity |].
  destruct (proj2 (switch_handlers_report_the_result 99 fresh eq_refl))
    as (b & s' & Hrun & _).
  exists b, s'. split; [exact Hrun |]. vm_compute. reflexivity.
Defined.

Lemma cleanup_handler_hides_failure_witness :
  is_initialized no_release_board = true ∧
  lock_held no_release_board = false ∧
  configured_pins no_release_board = ∅ ∧
  (drv_cleanup (FlakyGPIO true true true false) (gpio no_release_board)).1 = false ∧
  ∃ s',
    cleanup_gpio no_release_board =
      Ret ([("status", JStr "success");
            ("message", JStr "GPIO cleanup completed")], 200) s' ∧
    is_initialized s' = true.
Proof.
  do 4 (split; [reflexivity |]).
  destruct (cleanup_handler_hides_failure no_release_board
              eq_refl eq_refl eq_refl eq_refl) as (s' & Hrun & Hi & _).
  exists s'. split; [exact Hrun | exact Hi].
Defined.

Lemma no_read_board_configured : 17 ∈ configured_pins no_read_board.
Proof. apply (bool_decide_unpack _). vm_compute. exact I. Defined.

Lemma toggle_without_a_reading_witness :
  lock_held no_read_board = false ∧
  17 ∈ configured_pins no_read_board ∧
  (drv_input (FlakyGPIO true true false true) 17 (gpio no_read_board)).1 = None ∧
  ∃ s',
    toggle 17 no_read_board = Ret true s' ∧
    pin_states s' !! 17 = Some HIGH.
Proof.
  split; [reflexivity |]. split; [exact no_read_board_configured |].
  split; [reflexivity |].
  destruct (proj2 (toggle_without_a_reading 17 no_read_board eq_refl)
              no_read_board_configured eq_refl)
    as (s' & Hrun & Hps & _); [vm_compute; reflexivity |].
  exists s'. split; [exact Hrun | exact Hps].
Defined.

Lemma failed_write_keeps_auto_configuration_witness :
  (17 ∉ configured_pins no_write_board) ∧
  lock_held no_write_board = false ∧
  2 <= 17 <= 27 ∧
  (drv_setup (FlakyGPIO true false true true) 17 LOW (gpio no_write_board)).1 = true ∧
  ∃ s',
    turn_on 17 no_write_board = Ret false s' ∧
    17 ∈ configured_pins s' ∧
    pin_states s' !! 17 = Some LOW.
Proof.
  assert (Hr : 2 <= 17 <= 27) by lia.
  split; [apply not_elem_of_empty |]. split; [reflexivity |].
  split; [exact Hr |]. split; [reflexivity |].
  destruct (proj1 (failed_write_keeps_auto_configuration 17 no_write_board
                     (not_elem_of_empty 17) eq_refl Hr eq_refl))
    as (s' & Hrun & Hin & Hps & _); [reflexivity |].
  exists s'. split; [exact Hrun |]. split; [exact Hin | exact Hps].
Defined.

Lemma cleanup_twice_without_pin_witness :
  is_initialized fresh = true ∧
  lock_held fresh = false ∧
  configured_pins fresh = ∅ ∧
  (drv_cleanup MockGPIO (gpio fresh)).1 = true ∧
  ∃ s',
    cleanup fresh = Ret tt s' ∧
    cleanup s' = Ret tt s' ∧
    is_initialized s' = false.
Proof.
  do 4 (split; [reflexivity |]).
  destruct (cleanup_twice_without_pin fresh eq_refl eq_refl eq_refl eq_refl)
    as (s' & Hrun & Hrun' & _ & _ & Hi & _).
  exists s'. split; [exact Hrun |]. split; [exact Hrun' | exact Hi].
Defined.

Lemma simulation_round_trips_witness :
  is_Some (Mock._pin_modes (Mock.setup 17 "OUT" None Mock.empty).2 !! 17) ∧
  (Mock.input 17 (Mock.output 17 HIGH (Mock.setup 17 "OUT" None Mock.empty).2).2).1
    = Some HIGH ∧
  Mock._pin_modes Mock.empty !! 17 = None ∧
  Mock.output 17 HIGH Mock.empty = (false, Mock.empty).
Proof.
  assert (Hm : is_Some (Mock._pin_modes (Mock.setup 17 "OUT" None Mock.empty).2 !! 17)).
  { apply (bool_decide_unpack _). vm_compute. exact I. }
  split; [exact Hm |]. split.
  - exact (proj1 (proj2 (proj1 (proj2
             (simulation_round_trips 17 27 HIGH "OUT" None
                (Mock.setup 17 "OUT" None Mock.empty).2)) Hm))).
  - split; [reflexivity |].
    exact (proj1 (proj2 (proj2 (simulation_round_trips 17 27 HIGH "OUT" None
                                  Mock.empty))) eq_refl).
Defined.

(** ** The lock *)

Section Lock.

Context {drv : Driver}.
Implicit Types (s : State drv) (pin : Z).











End Lock.







(** With an interval that [time.sleep] refuses, [blink] returns [False] and
    leaves the pin [HIGH]. *)
Example blink_with_a_huge_interval :
  returned (blink 17 3 (10000000000 # 1) with_pin_17) = Some false ∧
  (pin_states <$> final (blink 17 3 (10000000000 # 1) with_pin_17))
    = Some {[17 := HIGH]}.
Proof. by vm_compute. Qed.
